(** * Gestion de stock : files physiques, comptes signes, alertes circulaires

    Shallow embedding of [main.py] (classes [SystemeAlerte], [Inventaire],
    [GestionnaireCommandes]) and the properties of its inventory and
    order-fulfilment engine.

    Conventions of the embedding:
    - a Python [str] is a [string]; a character is the code point it
      stands for, so the texts covered are those whose code points are
      below 256;
    - a Python [int] is a [Z];
    - [dict] and [Counter] objects are [gmap]s, a [deque] is a [list];
    - [print] and [logging] calls append to an output journal carried by
      the state; they never influence control flow. *)

From Stdlib Require Import Ascii.
From stdpp Require Import gmap strings list fin_maps pretty vector fin sorting.

Open Scope string_scope.

(** ** Python built-ins used by the program *)

Module Py.

Definition ord (c : ascii) : N := N_of_ascii c.

(** Whitespace for [str.split()] and [str.strip()]: TAB..CR, FS..US,
    SPACE, NEL and NBSP. *)
Definition isspace (c : ascii) : bool :=
  let n := ord c in
  ((9 <=? n) && (n <=? 13) || (28 <=? n) && (n <=? 32)
   || (n =? 133) || (n =? 160))%N.

(** [s.replace(old, new)] for one-character [old] and [new]. *)
Fixpoint replace (old new : ascii) (s : string) : string :=
  match s with
  | "" => ""
  | String c s' =>
      String (if Ascii.eqb c old then new else c) (replace old new s')
  end.

(** [s.split()]: maximal runs of non-whitespace characters, in order.
    [cur] is the run being read; the empty string means none is open. *)
Definition flush (cur : string) : list string :=
  match cur with "" => [] | _ => [cur] end.

Fixpoint split_go (cur : string) (s : string) : list string :=
  match s with
  | "" => flush cur
  | String c s' =>
      if isspace c then flush cur ++ split_go "" s'
      else split_go (cur +:+ String c "") s'
  end.

Definition split (s : string) : list string := split_go "" s.

(** [s.strip()] *)
Fixpoint lstrip (s : string) : string :=
  match s with
  | String c s' => if isspace c then lstrip s' else s
  | "" => ""
  end.

Fixpoint rstrip (s : string) : string :=
  match s with
  | "" => ""
  | String c s' =>
      match rstrip s' with
      | "" => if isspace c then "" else String c ""
      | r => String c r
      end
  end.

Definition strip (s : string) : string := lstrip (rstrip s).

(** Truth value of a [str], and of a value that is [None] or a [str]. *)
Definition truthy (s : string) : bool :=
  match s with "" => false | _ => true end.

Definition truthy_opt (o : option string) : bool :=
  match o with Some s => truthy s | None => false end.

(** [s[1:]] *)
Definition slice_from_1 (s : string) : string :=
  match s with "" => "" | String _ s' => s' end.

(** *** [int(s)] in base 10

    [None] stands for [ValueError].  The literal is: optional
    whitespace, an optional sign, decimal digits with single
    underscores allowed between digits, optional whitespace. *)

(** Whitespace skipped around an integer literal: TAB..CR and SPACE;
    NEL and NBSP are turned into spaces before parsing. *)
Definition int_isspace (c : ascii) : bool :=
  let n := ord c in
  ((9 <=? n) && (n <=? 13) || (n =? 32) || (n =? 133) || (n =? 160))%N.

Definition digit_value (c : ascii) : option N :=
  let n := ord c in
  if ((48 <=? n) && (n <=? 57))%N then Some (n - 48)%N else None.

Fixpoint int_skip_space (s : string) : string :=
  match s with
  | String c s' => if int_isspace c then int_skip_space s' else s
  | "" => ""
  end.

(** Reads digits and underscores.  [prev_us] tells whether the previous
    character was an underscore, [acc] is the value read so far and [n]
    the number of digits read.  Returns the value, the digit count and
    the unread rest. *)
Fixpoint int_scan (prev_us : bool) (acc : N) (n : nat) (s : string)
  : option (N * nat * string) :=
  match s with
  | "" => if prev_us then None else Some (acc, n, "")
  | String c s' =>
      if Ascii.eqb c "_" then
        if prev_us then None else int_scan true acc n s'
      else
        match digit_value c with
        | Some d => int_scan false (10 * acc + d)%N (S n) s'
        | None => if prev_us then None else Some (acc, n, s)
        end
  end.

(** Default of [sys.get_int_max_str_digits()]: a literal with more
    digits is refused with [ValueError]. *)
Definition int_max_str_digits : nat := 4300.

Definition int (s : string) : option Z :=
  let s1 := int_skip_space s in
  let '(sign, s2) :=
    match s1 with
    | String c r =>
        if Ascii.eqb c "+" then (1%Z, r)
        else if Ascii.eqb c "-" then ((-1)%Z, r)
        else (1%Z, s1)
    | "" => (1%Z, s1)
    end in
  let underscore_first :=
    match s2 with String c _ => Ascii.eqb c "_" | "" => false end in
  if underscore_first then None
  else
    match int_scan false 0%N 0 s2 with
    | None => None
    | Some (v, n, rest) =>
        if (int_max_str_digits <? n)%nat then None
        else if (n =? 0)%nat then None
        else
          match int_skip_space rest with
          | "" => Some (sign * Z.of_N v)%Z
          | _ => None
          end
    end.

(** *** [l.sort(key=..., reverse=...)]

    The sort is stable.  With [reverse=True] the list is reversed,
    sorted in ascending order of the key, and reversed again, so that
    elements of equal key keep their original order. *)
Section sort.
Context {A : Type} (key : A → Z).

Fixpoint insert_sorted (x : A) (l : list A) : list A :=
  match l with
  | [] => [x]
  | y :: l' =>
      if (key x <=? key y)%Z then x :: l else y :: insert_sorted x l'
  end.

Fixpoint sort_asc (l : list A) : list A :=
  match l with
  | [] => []
  | x :: l' => insert_sorted x (sort_asc l')
  end.

Definition sort (reverse_arg : bool) (l : list A) : list A :=
  if reverse_arg then reverse (sort_asc (reverse l)) else sort_asc l.
End sort.

End Py.

(** ** State, output journal and the state monad *)

Inductive evenement : Type :=
  | Print (texte : string)         (* a [print] call *)
  | LogWarning (message : string)  (* [logging.warning] *)
  | LogError (message : string).   (* [logging.error] *)

(** [SystemeAlerte]: the three slots and the write cursor.  The cursor is
    always one of 0, 1, 2 ([__init__] sets 0, [noter] reduces modulo 3). *)
Record SystemeAlerte : Type := mkSystemeAlerte {
  historique : vec (option string) 3;
  index_ecr : fin 3
}.

(** [Inventaire]: [_files] maps a product to its queue of physical units,
    [_comptes] is the [Counter] of signed ledger values.  Its [_alerteur]
    is the alert system of the enclosing state. *)
Record Inventaire : Type := mkInventaire {
  _files : gmap string (list string);
  _comptes : gmap string Z
}.

(** A [GestionnaireCommandes] with its two sub-systems, the inventory
    holding a reference to the same alert system, and what has been
    printed and logged so far. *)
Record Monde : Type := mkMonde {
  alerteur : SystemeAlerte;
  inventaire : Inventaire;
  journal : list evenement
}.

Definition M (A : Type) : Type := Monde → A * Monde.

Definition ret {A} (x : A) : M A := λ w, (x, w).

Definition bind {A B} (c : M A) (k : A → M B) : M B :=
  λ w, let r := c w in k r.1 r.2.

Notation "x <- c ;; k" := (bind c (λ x, k))
  (at level 100, c at next level, right associativity).
Notation "c ;; k" := (bind c (λ _, k))
  (at level 100, right associativity).

Definition get_alerteur : M SystemeAlerte := λ w, (alerteur w, w).
Definition set_alerteur (a : SystemeAlerte) : M unit :=
  λ w, (tt, mkMonde a (inventaire w) (journal w)).
Definition get_inventaire : M Inventaire := λ w, (inventaire w, w).
Definition set_inventaire (i : Inventaire) : M unit :=
  λ w, (tt, mkMonde (alerteur w) i (journal w)).
Definition emettre (e : evenement) : M unit :=
  λ w, (tt, mkMonde (alerteur w) (inventaire w) (journal w ++ [e])%list).

Definition print (texte : string) : M unit := emettre (Print texte).
Definition logging_warning (m : string) : M unit := emettre (LogWarning m).
Definition logging_error (m : string) : M unit := emettre (LogError m).

(** [for x in l: body(x)] *)
Fixpoint for_ {A} (l : list A) (body : A → M unit) : M unit :=
  match l with
  | [] => ret tt
  | x :: l' => body x ;; for_ l' body
  end.

(** Reading a [Counter]: a missing key reads as 0 and is not inserted. *)
Definition Counter_get (c : gmap string Z) (k : string) : Z :=
  default 0%Z (c !! k).

(** [Counter(l).items()]: the distinct elements of [l] in order of first
    occurrence, each with its number of occurrences. *)
Fixpoint Counter_incr (k : string) (c : list (string * Z)) : list (string * Z) :=
  match c with
  | [] => [(k, 1%Z)]
  | (k', n) :: c' =>
      if decide (k = k') then (k', (n + 1)%Z) :: c'
      else (k', n) :: Counter_incr k c'
  end.

Definition Counter_items (l : list string) : list (string * Z) :=
  foldl (λ c k, Counter_incr k c) [] l.

(** ** class SystemeAlerte *)

Definition mod3 (n : nat) : fin 3 :=
  nat_to_fin (Nat.mod_upper_bound n 3 (Nat.neq_succ_0 2)).

Definition SystemeAlerte_init : SystemeAlerte :=
  {| historique := vreplicate 3 None; index_ecr := 0%fin |}.

Definition noter (message : string) : M unit :=
  logging_warning message ;;
  a <- get_alerteur ;;
  set_alerteur
    {| historique := vinsert (index_ecr a) (Some message) (historique a);
       index_ecr := mod3 (index_ecr a + 1) |}.

Definition pas_d_alerte : string := "Pas d'alerte.".

(** [msg if msg else "Pas d'alerte."] *)
Definition etat_de (msg : option string) : string :=
  match msg with
  | Some m => if Py.truthy m then m else pas_d_alerte
  | None => pas_d_alerte
  end.

Definition afficher_slot (i : nat) : M unit :=
  a <- get_alerteur ;;
  let pos := mod3 (index_ecr a + i) in
  let msg := historique a !!! pos in
  let etat := etat_de msg in
  print ("Slot " +:+ pretty (i + 1)%nat +:+ " : " +:+ etat).

Definition afficher_tout : M unit :=
  print (String "010" "--- PANNEAU D'ALERTES ---") ;;
  for_ (seq 0 3) afficher_slot.

(** ** class Inventaire *)

Definition Inventaire_init : Inventaire :=
  {| _files := ∅; _comptes := ∅ |}.

Definition ajouter (produit : string) : M unit :=
  inv <- get_inventaire ;;
  let files1 :=
    match _files inv !! produit with
    | None => <[produit := []]> (_files inv)
    | Some _ => _files inv
    end in
  let files2 :=
    <[produit := (default [] (files1 !! produit) ++ [produit])%list]> files1 in
  let comptes :=
    <[produit := (Counter_get (_comptes inv) produit + 1)%Z]> (_comptes inv) in
  set_inventaire {| _files := files2; _comptes := comptes |}.

Definition quantite_comptable (produit : string) : M Z :=
  inv <- get_inventaire ;;
  ret (Counter_get (_comptes inv) produit).

Definition _verifier_seuil (produit : string) : M unit :=
  inv <- get_inventaire ;;
  let restant := Counter_get (_comptes inv) produit in
  if (restant <? 2)%Z then
    noter ("ALERTE: Stock faible " +:+ produit
           +:+ " (Reste: " +:+ pretty restant +:+ ")")
  else ret tt.

Definition _signaler_rupture (produit : string) : M unit :=
  let msg := "!!! RUPTURE : " +:+ produit +:+ " mis en dette (Backorder)." in
  print msg ;;
  logging_error
    ("Dette cr" +:+ String "233" (String "233" "e sur ") +:+ produit).

Definition sortir (produit : string) : M (option string) :=
  inv <- get_inventaire ;;
  let comptes :=
    <[produit := (Counter_get (_comptes inv) produit - 1)%Z]> (_comptes inv) in
  let file_prod := _files inv !! produit in
  let '(item, files) :=
    match file_prod with
    | Some (tete :: reste) => (Some tete, <[produit := reste]> (_files inv))
    | Some [] | None => (None, _files inv)
    end in
  set_inventaire {| _files := files; _comptes := comptes |} ;;
  _verifier_seuil produit ;;
  match item with
  | None => _signaler_rupture produit
  | Some _ => ret tt
  end ;;
  ret item.

(** ** class GestionnaireCommandes *)

Definition _parser (texte : string) : list string :=
  if negb (Py.truthy texte) then []
  else
    let nettoye := Py.replace "," " " texte in
    map Py.strip
      (List.filter (λ x, Py.truthy (Py.strip x)) (Py.split nettoye)).

Definition _extraire_vol (nom_produit : string) : Z :=
  match Py.int (Py.slice_from_1 nom_produit) with
  | Some n => n
  | None => 0%Z
  end.

Definition _trier_par_volume (produits : list string) : list string :=
  Py.sort _extraire_vol true produits.

Definition _traiter_arrivage (texte : string) : M unit :=
  let produits := _parser texte in
  for_ produits ajouter ;;
  print ("--> Arrivage trait" +:+ String "233" " : "
         +:+ pretty (length produits) +:+ " produits.").

Fixpoint faisabilite_boucle (besoins : list (string * Z)) (possible : bool)
  : M bool :=
  match besoins with
  | [] => ret possible
  | (prod, qte) :: reste =>
      q <- quantite_comptable prod ;;
      if (q <? qte)%Z then
        print ("Manque " +:+ prod +:+ " (Requis: " +:+ pretty qte +:+ ")") ;;
        faisabilite_boucle reste false
      else faisabilite_boucle reste possible
  end.

Definition _verifier_faisabilite (demandes : list string) : M bool :=
  faisabilite_boucle (Counter_items demandes) true.

Fixpoint assembler_boucle (demandes : list string) (colis_brut : list string)
  : M (list string) :=
  match demandes with
  | [] => ret colis_brut
  | prod :: reste =>
      item <- sortir prod ;;
      match item with
      | Some u =>
          if Py.truthy u then assembler_boucle reste (colis_brut ++ [u])%list
          else assembler_boucle reste colis_brut
      | None => assembler_boucle reste colis_brut
      end
  end.

Definition _assembler_colis (demandes : list string) : M (list string) :=
  colis_brut <- assembler_boucle demandes [] ;;
  ret (_trier_par_volume colis_brut).

Definition traiter_commande (texte : string) (strict : bool)
  : M (list string) :=
  let demandes := _parser texte in
  if strict then
    possible <- _verifier_faisabilite demandes ;;
    if negb possible then
      print "!!! COMMANDE ANNULEE : Stock insuffisant." ;;
      ret []
    else _assembler_colis demandes
  else _assembler_colis demandes.

Definition afficher_etat : M unit := afficher_tout.

(** [GestionnaireCommandes(arrivage_init)]: fresh sub-systems, then the
    initial arrival when a non-empty text is given. *)
Definition monde_vide : Monde :=
  {| alerteur := SystemeAlerte_init; inventaire := Inventaire_init;
     journal := [] |}.

Definition GestionnaireCommandes_init (arrivage_init : option string) : Monde :=
  match arrivage_init with
  | Some texte =>
      if Py.truthy texte then (_traiter_arrivage texte monde_vide).2
      else monde_vide
  | None => monde_vide
  end.


(** ** Auxiliary notions used to state the properties *)

(** The slots in the order [afficher_tout] visits them: the one the
    cursor will overwrite next comes first. *)
Definition chrono (a : SystemeAlerte) : list (option string) :=
  map (λ i, historique a !!! mod3 (index_ecr a + i)) (seq 0 3).

Definition entete_panneau : string := String "010" "--- PANNEAU D'ALERTES ---".

(** Ledger value and queue of a product, as read from a state. *)
Definition compte (w : Monde) (p : string) : Z :=
  Counter_get (_comptes (inventaire w)) p.

Definition file (w : Monde) (p : string) : list string :=
  default [] (_files (inventaire w) !! p).

(** The message [_verifier_seuil] records and the two notifications
    [_signaler_rupture] emits. *)
Definition texte_alerte (p : string) (restant : Z) : string :=
  "ALERTE: Stock faible " +:+ p +:+ " (Reste: " +:+ pretty restant +:+ ")".

Definition signal_rupture (p : string) : list evenement :=
  [Print ("!!! RUPTURE : " +:+ p +:+ " mis en dette (Backorder).");
   LogError ("Dette cr" +:+ String "233" (String "233" "e sur ") +:+ p)].

Definition est_avertissement (e : evenement) : bool :=
  match e with LogWarning _ => true | _ => false end.

(** Calls on an [Inventaire] and sequences of them. *)
Inductive appel : Type :=
  | Ajouter (produit : string)
  | Sortir (produit : string).

Global Instance appel_eq_dec : EqDecision appel.
Proof. solve_decision. Defined.

Definition appeler (a : appel) : M unit :=
  match a with
  | Ajouter p => ajouter p
  | Sortir p => sortir p ;; ret tt
  end.

Definition nb_ajouts (p : string) (l : list appel) : nat :=
  length (filter (λ a, a = Ajouter p) l).

Definition nb_sorties (p : string) (l : list appel) : nat :=
  length (filter (λ a, a = Sortir p) l).

Definition concerne (p : string) (a : appel) : Prop :=
  a = Ajouter p ∨ a = Sortir p.

(** Number of occurrences of [x] in [l]. *)
Definition occurrences (x : string) (l : list string) : nat :=
  length (filter (λ y, y = x) l).

(** Ledger never above the queue length. *)
Definition comptes_bornes (w : Monde) : Prop :=
  ∀ p, (compte w p ≤ Z.of_nat (length (file w p)))%Z.

(** The results of the successive [sortir] calls of an assembly, and the
    raw package [_assembler_colis] keeps from them. *)
Fixpoint sortir_tous (demandes : list string) : M (list (option string)) :=
  match demandes with
  | [] => ret []
  | prod :: reste =>
      item <- sortir prod ;;
      items <- sortir_tous reste ;;
      ret (item :: items)
  end.

Fixpoint colis_de (items : list (option string)) : list string :=
  match items with
  | [] => []
  | Some u :: r => if Py.truthy u then u :: colis_de r else colis_de r
  | None :: r => colis_de r
  end.

(** States reachable through the operations of [GestionnaireCommandes]. *)
Inductive atteignable : Monde → Prop :=
  | att_init arrivage_init :
      atteignable (GestionnaireCommandes_init arrivage_init)
  | att_arrivage w texte :
      atteignable w → atteignable (_traiter_arrivage texte w).2
  | att_commande w texte strict :
      atteignable w → atteignable (traiter_commande texte strict w).2
  | att_etat w :
      atteignable w → atteignable (afficher_etat w).2.

(** Quantity recorded for [k] in the items of a [Counter]. *)
Fixpoint items_get (c : list (string * Z)) (k : string) : Z :=
  match c with
  | [] => 0%Z
  | (k', n) :: c' => if decide (k = k') then n else items_get c' k
  end.

(** The entries of the grouped demand that the ledger does not cover. *)
Definition manquants (w : Monde) (besoins : list (string * Z))
  : list (string * Z) :=
  List.filter (λ pq, (compte w pq.1 <? pq.2)%Z) besoins.

(** Every unit in the queue of a product is the name of that product. *)
Definition unites_conformes (w : Monde) : Prop :=
  ∀ p, Forall (λ u, u = p) (file w p).

(** What [_verifier_faisabilite] prints for an entry that is not covered. *)
Definition ligne_manque (pq : string * Z) : evenement :=
  Print ("Manque " +:+ pq.1 +:+ " (Requis: " +:+ pretty pq.2 +:+ ")").

(** Orders on the elements of a list by their sort key. *)
Definition croissant {A} (key : A → Z) : relation A :=
  λ a b, (key a ≤ key b)%Z.
Definition decroissant {A} (key : A → Z) : relation A :=
  λ a b, (key b ≤ key a)%Z.

(** The two inventory invariants together. *)
Definition coherent (w : Monde) : Prop :=
  comptes_bornes w ∧ unites_conformes w.

(** Digit strings and their decimal value. *)
Definition est_chiffre (c : ascii) : bool :=
  match Py.digit_value c with Some _ => true | None => false end.

Fixpoint tous_chiffres (s : string) : bool :=
  match s with
  | "" => true
  | String c s' => est_chiffre c && tous_chiffres s'
  end.

Fixpoint valeur_decimale (acc : N) (s : string) : N :=
  match s with
  | "" => acc
  | String c s' =>
      match Py.digit_value c with
      | Some d => valeur_decimale (10 * acc + d)%N s'
      | None => acc
      end
  end.

(** A character that cannot occur in an integer literal: neither a
    digit, nor an underscore, nor a sign, nor whitespace. *)
Definition etranger (c : ascii) : bool :=
  negb (est_chiffre c || Py.int_isspace c || Ascii.eqb c "_"
        || Ascii.eqb c "+" || Ascii.eqb c "-").

Fixpoint contient_etranger (s : string) : bool :=
  match s with
  | "" => false
  | String c s' => etranger c || contient_etranger s'
  end.

(** The volume as the specification words it: the integer written by
    the maximal run of digits at the end of the token, 0 when the token
    does not end with a digit. *)
Fixpoint suffixe_chiffres (t : string) : string :=
  match t with
  | "" => ""
  | String c t' =>
      let r := suffixe_chiffres t' in
      if est_chiffre c && (String.length r =? String.length t')%nat
      then String c r else r
  end.

Definition volume_suffixe (t : string) : Z :=
  Z.of_N (valeur_decimale 0 (suffixe_chiffres t)).

(** Characters of a text: [tous P s] holds when every character of [s]
    satisfies [P]. *)
Fixpoint tous (P : ascii → bool) (s : string) : bool :=
  match s with
  | "" => true
  | String c s' => P c && tous P s'
  end.

(** What [_parser] treats as a separator: whitespace or a comma. *)
Definition est_separateur (c : ascii) : bool :=
  Py.isspace c || Ascii.eqb c ",".

Definition hors_separateur (c : ascii) : bool := negb (est_separateur c).

(** Number of backorder records ([logging.error]) in a journal. *)
Definition est_erreur (e : evenement) : bool :=
  match e with LogError _ => true | _ => false end.

Definition nb_ruptures (j : list evenement) : nat :=
  length (List.filter est_erreur j).

(** Gap between the physical queue and the ledger of a product. *)
Definition ecart (w : Monde) (p : string) : Z :=
  (Z.of_nat (length (file w p)) - compte w p)%Z.

(** The products the constructor receives. *)
Definition jetons_init (arrivage_init : option string) : list string :=
  match arrivage_init with
  | Some texte => _parser texte
  | None => []
  end.

(** * Properties *)

(** ** The alert log *)

Lemma chrono_noter (m : string) (w : Monde) :
  chrono (alerteur (noter m w).2) = (tail (chrono (alerteur w)) ++ [Some m])%list.
Proof.
  destruct w as [[h i] inv j]. unfold chrono; simpl.
  inv_all_vec_fin; reflexivity.
Qed.

Lemma chrono_length (a : SystemeAlerte) : length (chrono a) = 3.
Proof. reflexivity. Qed.

Lemma chrono_for_noter (msgs : list string) (w : Monde) :
  chrono (alerteur (for_ msgs noter w).2)
  = drop (length msgs) (chrono (alerteur w) ++ map Some msgs)%list.
Proof.
  revert w. induction msgs as [|m msgs IH]; intros w.
  - reflexivity.
  - change ((for_ (m :: msgs) noter w).2) with ((for_ msgs noter (noter m w).2).2).
    rewrite IH, chrono_noter.
    pose proof (chrono_length (alerteur w)) as Hl.
    destruct (chrono (alerteur w)) as [|x t]; [discriminate|].
    cbn [tail length drop app map]. by rewrite <- app_assoc.
Qed.

Lemma afficher_tout_journal (w : Monde) :
  ∃ o1 o2 o3,
    chrono (alerteur w) = [o1; o2; o3]
    ∧ (afficher_tout w).2
      = mkMonde (alerteur w) (inventaire w)
          (journal w ++ [Print entete_panneau;
                         Print ("Slot 1 : " +:+ etat_de o1);
                         Print ("Slot 2 : " +:+ etat_de o2);
                         Print ("Slot 3 : " +:+ etat_de o3)])%list.
Proof.
  destruct w as [a inv j]. eexists _, _, _. split; [reflexivity|].
  unfold afficher_tout, bind, print, emettre; simpl.
  by rewrite <- !app_assoc.
Qed.

Lemma drop_trois_vides {A} (l : list (option A)) :
  drop (length l) ([None; None; None] ++ l)%list
  = (replicate (3 - length l) None ++ drop (length l - 3) l)%list.
Proof.
  destruct l as [|x1 [|x2 [|x3 l]]]; try reflexivity.
  rewrite drop_app_ge by (simpl; lia). reflexivity.
Qed.

(** C8 (as amended).  After recording the messages [msgs] into a fresh
    alert log, [afficher_tout] prints the header and three lines, oldest
    first: when fewer than three messages were recorded the first
    [3 - k] lines show the no-alert label and the others the recorded
    messages; otherwise they show the last three messages.  A recorded
    message is shown as itself when it is not the empty string, and as
    the no-alert label when it is the empty string. The display changes
    neither the alert log nor the inventory. *)
Theorem afficher_tout_apres_noter
    (msgs : list string) (inv : Inventaire) (j : list evenement) :
  let w := (for_ msgs noter (mkMonde SystemeAlerte_init inv j)).2 in
  let k := length msgs in
  ∃ o1 o2 o3,
    (replicate (3 - k) None ++ map Some (drop (k - 3) msgs))%list = [o1; o2; o3]
    ∧ (afficher_tout w).2
      = mkMonde (alerteur w) (inventaire w)
          (journal w ++ [Print entete_panneau;
                         Print ("Slot 1 : " +:+ etat_de o1);
                         Print ("Slot 2 : " +:+ etat_de o2);
                         Print ("Slot 3 : " +:+ etat_de o3)])%list
    ∧ etat_de None = pas_d_alerte
    ∧ etat_de (Some "") = pas_d_alerte
    ∧ ∀ c m, etat_de (Some (String c m)) = String c m.
Proof.
  intros w k.
  destruct (afficher_tout_journal w) as (o1 & o2 & o3 & Hc & Hj).
  exists o1, o2, o3. split; [|by rewrite Hj].
  rewrite <- Hc. unfold w. rewrite chrono_for_noter.
  change (chrono (alerteur (mkMonde SystemeAlerte_init inv j)))
    with ([None; None; None] : list (option string)).
  rewrite <- (length_map Some msgs) at 1.
  rewrite drop_trois_vides, length_map, skipn_map. reflexivity.
Qed.

(** C8 (counterexample).  Recording the empty message, then "a", then
    "b": the first line shows the no-alert label, not the recorded
    message. *)
Lemma afficher_tout_message_vide :
  let w := (for_ [""; "a"; "b"] noter monde_vide).2 in
  journal (afficher_tout w).2
  = (journal w ++ [Print entete_panneau; Print "Slot 1 : Pas d'alerte.";
                   Print "Slot 2 : a"; Print "Slot 3 : b"])%list
  ∧ journal (afficher_tout w).2
    ≠ (journal w ++ [Print entete_panneau; Print "Slot 1 : ";
                     Print "Slot 2 : a"; Print "Slot 3 : b"])%list.
Proof. split; [reflexivity | discriminate]. Qed.

(** ** The inventory: effect of each call on ledger and queues *)

Ltac exec :=
  unfold sortir, ajouter, quantite_comptable, _verifier_seuil,
    _signaler_rupture, noter, print, logging_warning, logging_error,
    emettre, get_inventaire, set_inventaire, get_alerteur, set_alerteur,
    bind, ret; simpl.

Lemma sortir_eq (p : string) (w : Monde) :
  sortir p w =
  let c := (compte w p - 1)%Z in
  let item := head (file w p) in
  let inv' :=
    {| _files := match _files (inventaire w) !! p with
                 | Some (_ :: r) => <[p := r]> (_files (inventaire w))
                 | _ => _files (inventaire w)
                 end;
       _comptes := <[p := c]> (_comptes (inventaire w)) |} in
  let w1 := mkMonde (alerteur w) inv' (journal w) in
  let w2 := if (c <? 2)%Z then (noter (texte_alerte p c) w1).2 else w1 in
  let w3 := match item with
            | None => mkMonde (alerteur w2) (inventaire w2)
                        (journal w2 ++ signal_rupture p)
            | Some _ => w2
            end in
  (item, w3).
Proof.
  destruct w as [a [f c] j]. unfold compte, file. exec.
  destruct (f !! p) as [[|t r]|] eqn:E; simpl;
    unfold Counter_get; rewrite lookup_insert_eq; simpl;
    destruct (_ <? 2)%Z; simpl; rewrite <- ?app_assoc; reflexivity.
Qed.

Lemma ajouter_eq (p : string) (w : Monde) :
  ajouter p w =
  (tt, mkMonde (alerteur w)
         {| _files := <[p := (file w p ++ [p])%list]> (_files (inventaire w));
            _comptes := <[p := (compte w p + 1)%Z]> (_comptes (inventaire w)) |}
         (journal w)).
Proof.
  destruct w as [a [f c] j]. unfold compte, file. exec.
  destruct (f !! p) as [q|] eqn:E; simpl.
  - by rewrite E.
  - by rewrite lookup_insert_eq, insert_insert_eq.
Qed.

Lemma compte_ajouter (p q : string) (w : Monde) :
  compte (ajouter p w).2 q
  = if decide (q = p) then (compte w p + 1)%Z else compte w q.
Proof.
  rewrite ajouter_eq. unfold compte, Counter_get; simpl.
  case_decide; subst; [by rewrite lookup_insert_eq|by rewrite lookup_insert_ne].
Qed.

Lemma file_ajouter (p q : string) (w : Monde) :
  file (ajouter p w).2 q
  = if decide (q = p) then (file w p ++ [p])%list else file w q.
Proof.
  rewrite ajouter_eq. unfold file; simpl.
  case_decide; subst; [by rewrite lookup_insert_eq|by rewrite lookup_insert_ne].
Qed.

Lemma alerteur_ajouter (p : string) (w : Monde) :
  alerteur (ajouter p w).2 = alerteur w ∧ journal (ajouter p w).2 = journal w.
Proof. by rewrite ajouter_eq. Qed.

Lemma inventaire_sortir (p : string) (w : Monde) :
  inventaire (sortir p w).2 =
  {| _files := match _files (inventaire w) !! p with
               | Some (_ :: r) => <[p := r]> (_files (inventaire w))
               | _ => _files (inventaire w)
               end;
     _comptes := <[p := (compte w p - 1)%Z]> (_comptes (inventaire w)) |}.
Proof.
  rewrite sortir_eq; simpl.
  destruct (head (file w p)), (_ <? 2)%Z; reflexivity.
Qed.

Lemma resultat_sortir (p : string) (w : Monde) :
  (sortir p w).1 = head (file w p).
Proof. by rewrite sortir_eq. Qed.

Lemma compte_sortir (p q : string) (w : Monde) :
  compte (sortir p w).2 q
  = if decide (q = p) then (compte w p - 1)%Z else compte w q.
Proof.
  unfold compte at 1. rewrite inventaire_sortir. unfold Counter_get; simpl.
  case_decide; subst; [by rewrite lookup_insert_eq|by rewrite lookup_insert_ne].
Qed.

Lemma file_sortir (p q : string) (w : Monde) :
  file (sortir p w).2 q = if decide (q = p) then tail (file w p) else file w q.
Proof.
  unfold file at 1. rewrite inventaire_sortir; simpl. unfold file.
  destruct (_files (inventaire w) !! p) as [[|t r]|] eqn:E;
    case_decide; subst; rewrite ?E, ?lookup_insert_eq, ?lookup_insert_ne by done;
    reflexivity.
Qed.

Lemma alerteur_sortir (p : string) (w : Monde) :
  alerteur (sortir p w).2 =
  if (compte w p - 1 <? 2)%Z
  then {| historique := vinsert (index_ecr (alerteur w))
                          (Some (texte_alerte p (compte w p - 1)))
                          (historique (alerteur w));
          index_ecr := mod3 (index_ecr (alerteur w) + 1) |}
  else alerteur w.
Proof.
  rewrite sortir_eq; simpl.
  destruct (head (file w p)), (_ <? 2)%Z; reflexivity.
Qed.

Lemma journal_sortir (p : string) (w : Monde) :
  journal (sortir p w).2 =
  (journal w
   ++ (if (compte w p - 1 <? 2)%Z
       then [LogWarning (texte_alerte p (compte w p - 1))] else [])
   ++ (match (sortir p w).1 with None => signal_rupture p | Some _ => [] end))%list.
Proof.
  rewrite sortir_eq; simpl.
  destruct (head (file w p)), (_ <? 2)%Z; simpl;
    rewrite <- ?app_assoc, ?app_nil_r; reflexivity.
Qed.

Lemma for_cons {A} (x : A) (l : list A) (body : A → M unit) (w : Monde) :
  (for_ (x :: l) body w).2 = (for_ l body (body x w).2).2.
Proof. reflexivity. Qed.

Lemma compte_appeler (c : appel) (p : string) (w : Monde) :
  compte (appeler c w).2 p
  = (compte w p + (if decide (c = Ajouter p) then 1 else 0)
     - (if decide (c = Sortir p) then 1 else 0))%Z.
Proof.
  destruct c as [q|q]; cbn [appeler].
  - rewrite compte_ajouter. repeat case_decide; simplify_eq; lia.
  - change ((bind (sortir q) (λ _, ret tt) w).2) with ((sortir q w).2).
    rewrite compte_sortir. repeat case_decide; simplify_eq; lia.
Qed.

Lemma compte_appels (l : list appel) (p : string) (w : Monde) :
  compte (for_ l appeler w).2 p
  = (compte w p + Z.of_nat (nb_ajouts p l) - Z.of_nat (nb_sorties p l))%Z.
Proof.
  revert w. induction l as [|c l IH]; intros w.
  - unfold nb_ajouts, nb_sorties; simpl. lia.
  - rewrite for_cons, IH, compte_appeler.
    unfold nb_ajouts, nb_sorties. rewrite !filter_cons.
    repeat case_decide; simpl; lia.
Qed.

Lemma nb_sans_concerne (p : string) (l : list appel) :
  nb_ajouts p (filter (λ c, ¬ concerne p c) l) = 0
  ∧ nb_sorties p (filter (λ c, ¬ concerne p c) l) = 0.
Proof.
  unfold nb_ajouts, nb_sorties, concerne.
  induction l as [|c l [IH1 IH2]]; [done|].
  rewrite filter_cons. case_decide as Hc; [|done].
  rewrite !filter_cons. repeat case_decide; simplify_eq; tauto.
Qed.

(** C1.  Starting from a fresh inventory, after any sequence of
    [ajouter] and [sortir] calls (on [p] or on other products) the value
    [quantite_comptable p] returns is the number of [ajouter p] calls
    minus the number of [sortir p] calls, whatever the queues held; if
    no call concerned [p] the value is 0; and [quantite_comptable]
    leaves the whole state, ledger map and queues included, as it was. *)
Theorem quantite_comptable_bilan
    (p : string) (appels : list appel) (a : SystemeAlerte) (j : list evenement) :
  let frais := mkMonde a Inventaire_init j in
  let w := (for_ appels appeler frais).2 in
  quantite_comptable p w
  = ((Z.of_nat (nb_ajouts p appels) - Z.of_nat (nb_sorties p appels))%Z, w)
  ∧ (quantite_comptable p
       (for_ (filter (λ c, ¬ concerne p c) appels) appeler frais).2).1 = 0%Z
  ∧ ∀ w' : Monde, (quantite_comptable p w').2 = w'.
Proof.
  intros frais w. split; [|split].
  - change (quantite_comptable p w) with (compte w p, w).
    unfold w. rewrite compte_appels.
    change (compte frais p) with (default 0%Z ((∅ : gmap string Z) !! p)).
    rewrite lookup_empty; simpl. f_equal; lia.
  - change (compte (for_ (filter (λ c, ¬ concerne p c) appels) appeler frais).2 p = 0%Z).
    rewrite compte_appels.
    destruct (nb_sans_concerne p appels) as [-> ->].
    change (compte frais p) with (default 0%Z ((∅ : gmap string Z) !! p)).
    rewrite lookup_empty; simpl. lia.
  - reflexivity.
Qed.

Lemma comptes_bornes_ajouter (w : Monde) (p : string) :
  comptes_bornes w → comptes_bornes (ajouter p w).2.
Proof.
  intros H q. rewrite compte_ajouter, file_ajouter.
  case_decide; subst; [|apply H].
  specialize (H p). rewrite length_app; simpl. lia.
Qed.

Lemma comptes_bornes_sortir (w : Monde) (p : string) :
  comptes_bornes w → comptes_bornes (sortir p w).2.
Proof.
  intros H q. rewrite compte_sortir, file_sortir.
  case_decide; subst; [|apply H].
  specialize (H p). destruct (file w p); simpl in *; lia.
Qed.

Lemma comptes_bornes_frais (a : SystemeAlerte) (j : list evenement) :
  comptes_bornes (mkMonde a Inventaire_init j).
Proof.
  intros p. unfold compte, file, Counter_get; simpl.
  rewrite !lookup_empty; simpl. lia.
Qed.

Lemma comptes_bornes_appels (l : list appel) (w : Monde) :
  comptes_bornes w → comptes_bornes (for_ l appeler w).2.
Proof.
  revert w. induction l as [|c l IH]; intros w H; [exact H|].
  rewrite for_cons. apply IH. destruct c as [q|q].
  - by apply comptes_bornes_ajouter.
  - by apply (comptes_bornes_sortir w q).
Qed.

(** C2.  In every state reached from a fresh inventory by [ajouter] and
    [sortir] calls, in any order and on any products, the ledger value
    of each product is at most the length of its queue (an absent queue
    counting as empty); every [ajouter] and every [sortir] preserves
    this; and a queue length is never negative. *)
Theorem comptes_bornes_invariant :
  (∀ (appels : list appel) (a : SystemeAlerte) (j : list evenement),
      comptes_bornes (for_ appels appeler (mkMonde a Inventaire_init j)).2)
  ∧ (∀ (w : Monde) (p : string),
      comptes_bornes w → comptes_bornes (ajouter p w).2)
  ∧ (∀ (w : Monde) (p : string),
      comptes_bornes w → comptes_bornes (sortir p w).2)
  ∧ (∀ (w : Monde) (p : string), (0 ≤ Z.of_nat (length (file w p)))%Z).
Proof.
  repeat split.
  - intros. apply comptes_bornes_appels, comptes_bornes_frais.
  - apply comptes_bornes_ajouter.
  - apply comptes_bornes_sortir.
  - intros. lia.
Qed.

Lemma comptes_bornes_invariant_temoin :
  comptes_bornes (ajouter "A1" monde_vide).2
  ∧ comptes_bornes (sortir "A1" (ajouter "A1" monde_vide).2).2.
Proof.
  destruct comptes_bornes_invariant as (Hfrais & Hajout & Hsortie & _).
  pose proof (Hfrais [] SystemeAlerte_init []) as H0.
  split.
  - exact (Hajout monde_vide "A1" H0).
  - exact (Hsortie _ "A1" (Hajout monde_vide "A1" H0)).
Defined.

(** C4.  [sortir p] always lowers the ledger value of [p] by exactly 1
    and touches no other ledger entry.  When the queue of [p] exists and
    is not empty it returns its front unit and removes it from that
    queue; when the queue is empty or absent it returns [None] and
    leaves every queue as it was.  The backorder notifications are
    emitted exactly when [None] is returned, after and whatever the
    outcome of the threshold check; [sortir] has no strategy parameter. *)
Theorem sortir_contrat (p : string) (w : Monde) :
  let r := sortir p w in
  let c := ((quantite_comptable p w).1 - 1)%Z in
  (quantite_comptable p r.2).1 = c
  ∧ _comptes (inventaire r.2) = <[p := c]> (_comptes (inventaire w))
  ∧ match _files (inventaire w) !! p with
    | Some (tete :: reste) =>
        r.1 = Some tete
        ∧ _files (inventaire r.2) = <[p := reste]> (_files (inventaire w))
    | Some [] | None =>
        r.1 = None ∧ _files (inventaire r.2) = _files (inventaire w)
    end
  ∧ journal r.2
    = (journal w
       ++ (if decide (c < 2)%Z then [LogWarning (texte_alerte p c)] else [])
       ++ (match r.1 with None => signal_rupture p | Some _ => [] end))%list
  ∧ signal_rupture p
    = [Print ("!!! RUPTURE : " +:+ p +:+ " mis en dette (Backorder).");
       LogError ("Dette cr" +:+ String "233" (String "233" "e sur ") +:+ p)].
Proof.
  intros r c. unfold r.
  change c with (compte w p - 1)%Z.
  change (quantite_comptable p (sortir p w).2).1 with (compte (sortir p w).2 p).
  rewrite compte_sortir, decide_True by done.
  rewrite inventaire_sortir, journal_sortir, resultat_sortir. simpl.
  repeat split.
  - unfold file. destruct (_files (inventaire w) !! p) as [[|t q]|]; done.
  - destruct (Z.ltb_spec (compte w p - 1) 2); case_decide; (done || lia).
Qed.

(** C5.  Every [sortir p] checks the threshold on the ledger value [c]
    it has just produced.  When [c < 2] (0 and negative values
    included) the call records exactly one message, which carries [p]
    and [c], in the slot under the write cursor of the alert log and
    moves the cursor on; when [2 <= c] the alert log is left as it was
    and no warning is emitted.  This holds in every state, hence at each
    successive call while the value stays below 2. *)
Theorem sortir_alerte_seuil (p : string) (w : Monde) :
  let r := sortir p w in
  let c := ((quantite_comptable p w).1 - 1)%Z in
  let msg := "ALERTE: Stock faible " +:+ p +:+ " (Reste: " +:+ pretty c +:+ ")" in
  (quantite_comptable p r.2).1 = c
  ∧ if decide (c < 2)%Z then
      alerteur r.2
      = {| historique := vinsert (index_ecr (alerteur w)) (Some msg)
                           (historique (alerteur w));
           index_ecr := mod3 (index_ecr (alerteur w) + 1) |}
      ∧ List.filter est_avertissement (journal r.2)
        = (List.filter est_avertissement (journal w) ++ [LogWarning msg])%list
    else
      alerteur r.2 = alerteur w
      ∧ List.filter est_avertissement (journal r.2)
        = List.filter est_avertissement (journal w).
Proof.
  intros r c msg. unfold r.
  change c with (compte w p - 1)%Z in *.
  change msg with (texte_alerte p (compte w p - 1)).
  change (quantite_comptable p (sortir p w).2).1 with (compte (sortir p w).2 p).
  rewrite compte_sortir, decide_True by done.
  rewrite alerteur_sortir, journal_sortir.
  rewrite !List.filter_app.
  assert (List.filter est_avertissement
            (match (sortir p w).1 with
             | Some _ => []
             | None => signal_rupture p
             end) = []) as -> by (by destruct (sortir p w).1).
  rewrite app_nil_r.
  split; [done|].
  destruct (Z.ltb_spec (compte w p - 1) 2); case_decide; try lia.
  - done.
  - simpl. by rewrite app_nil_r.
Qed.

(** ** The stable sort *)

Section sort_facts.
Context {A : Type} (key : A → Z).

Lemma insert_sorted_perm (x : A) (l : list A) :
  Py.insert_sorted key x l ≡ₚ x :: l.
Proof.
  induction l as [|y l IH]; simpl; [done|].
  destruct (key x <=? key y)%Z; [done|].
  rewrite IH. apply Permutation_swap.
Qed.

Lemma sort_asc_perm (l : list A) : Py.sort_asc key l ≡ₚ l.
Proof.
  induction l as [|x l IH]; simpl; [done|].
  by rewrite insert_sorted_perm, IH.
Qed.

Lemma insert_sorted_sorted (x : A) (l : list A) :
  StronglySorted (croissant key) l →
  StronglySorted (croissant key) (Py.insert_sorted key x l).
Proof.
  induction 1 as [|y l Hl IH Hy]; simpl.
  - repeat constructor.
  - destruct (Z.leb_spec (key x) (key y)) as [Hxy|Hxy].
    + constructor; [by constructor|].
      constructor; [exact Hxy|].
      eapply Forall_impl; [exact Hy|]. unfold croissant; simpl; intros; lia.
    + constructor; [exact IH|].
      rewrite insert_sorted_perm. constructor; [|exact Hy].
      unfold croissant; lia.
Qed.

Lemma sort_asc_sorted (l : list A) :
  StronglySorted (croissant key) (Py.sort_asc key l).
Proof.
  induction l as [|x l IH]; simpl; [constructor|].
  by apply insert_sorted_sorted.
Qed.

Lemma reverse_sorted (l : list A) :
  StronglySorted (croissant key) l → StronglySorted (decroissant key) (reverse l).
Proof.
  induction 1 as [|y l Hl IH Hy]; [constructor|].
  rewrite reverse_cons. apply StronglySorted_app_2; [|exact IH|repeat constructor].
  intros a b Ha Hb. apply list_elem_of_singleton in Hb as ->.
  rewrite elem_of_reverse in Ha. rewrite Forall_forall in Hy.
  apply (Hy a Ha).
Qed.

Lemma sort_reverse_perm (l : list A) : Py.sort key true l ≡ₚ l.
Proof.
  unfold Py.sort. by rewrite reverse_Permutation, sort_asc_perm, reverse_Permutation.
Qed.

Lemma sort_reverse_sorted (l : list A) :
  StronglySorted (decroissant key) (Py.sort key true l).
Proof. apply reverse_sorted, sort_asc_sorted. Qed.

Lemma insert_sorted_filter (v : Z) (x : A) (l : list A) :
  filter (λ a, key a = v) (Py.insert_sorted key x l)
  = filter (λ a, key a = v) (x :: l).
Proof.
  induction l as [|y l IH]; simpl; [done|].
  destruct (Z.leb_spec (key x) (key y)) as [Hxy|Hxy]; [done|].
  rewrite (filter_cons _ y), IH, !filter_cons.
  repeat case_decide; (done || lia).
Qed.

Lemma sort_asc_filter (v : Z) (l : list A) :
  filter (λ a, key a = v) (Py.sort_asc key l) = filter (λ a, key a = v) l.
Proof.
  induction l as [|x l IH]; simpl; [done|].
  by rewrite insert_sorted_filter, !filter_cons, IH.
Qed.

(** Stability: elements of equal key keep their relative order. *)
Lemma sort_reverse_stable (v : Z) (l : list A) :
  filter (λ a, key a = v) (Py.sort key true l) = filter (λ a, key a = v) l.
Proof.
  unfold Py.sort.
  by rewrite filter_reverse, sort_asc_filter, filter_reverse, reverse_involutive.
Qed.
End sort_facts.

(** ** The parser and the grouping of a demand *)

Lemma _parser_non_vide (texte : string) :
  Forall (λ t, t ≠ "") (_parser texte).
Proof.
  unfold _parser. destruct (negb _); [constructor|].
  apply Forall_forall. intros t Ht.
  apply list_elem_of_In, in_map_iff in Ht as (x & <- & Hx).
  apply filter_In in Hx as [_ Hx].
  by destruct (Py.strip x).
Qed.

Lemma occurrences_cons (x y : string) (l : list string) :
  occurrences x (y :: l)
  = (if decide (y = x) then 1 else 0) + occurrences x l.
Proof. unfold occurrences. rewrite filter_cons. by case_decide. Qed.

Lemma occurrences_pos (x : string) (l : list string) :
  x ∈ l ↔ 0 < occurrences x l.
Proof.
  induction l as [|y l IH].
  - split; [by intros ?%elem_of_nil | unfold occurrences; simpl; lia].
  - rewrite occurrences_cons, elem_of_cons, IH.
    case_decide; subst; split; intros; try lia; auto.
    destruct H0; [congruence|done].
Qed.

Lemma items_get_incr (k k' : string) (c : list (string * Z)) :
  items_get (Counter_incr k c) k'
  = (items_get c k' + if decide (k' = k) then 1 else 0)%Z.
Proof.
  induction c as [|[k0 n] c IH]; simpl.
  - case_decide; lia.
  - destruct (decide (k = k0)) as [->|Hk]; simpl.
    + repeat case_decide; lia.
    + rewrite IH. repeat case_decide; subst; (done || lia).
Qed.

Lemma cles_incr (k k' : string) (c : list (string * Z)) :
  k' ∈ (Counter_incr k c).*1 ↔ k' = k ∨ k' ∈ c.*1.
Proof.
  induction c as [|[k0 n] c IH]; simpl.
  - rewrite list_elem_of_singleton, elem_of_nil. tauto.
  - destruct (decide (k = k0)) as [->|Hk]; simpl;
      rewrite !elem_of_cons, ?IH; tauto.
Qed.

Lemma NoDup_incr (k : string) (c : list (string * Z)) :
  NoDup c.*1 → NoDup (Counter_incr k c).*1.
Proof.
  induction c as [|[k0 n] c IH]; simpl; intros Hc.
  - apply NoDup_singleton.
  - destruct (decide (k = k0)) as [->|Hk]; simpl; [done|].
    apply NoDup_cons in Hc as [Hk0 Hc].
    apply NoDup_cons. split; [|by apply IH].
    rewrite cles_incr. intros [?|?]; [congruence|done].
Qed.

Lemma foldl_incr (l : list string) (c : list (string * Z)) :
  let c' := foldl (λ c k, Counter_incr k c) c l in
  (∀ k, items_get c' k = (items_get c k + Z.of_nat (occurrences k l))%Z)
  ∧ (∀ k, k ∈ c'.*1 ↔ k ∈ c.*1 ∨ k ∈ l)
  ∧ (NoDup c.*1 → NoDup c'.*1).
Proof.
  revert c. induction l as [|x l IH]; intros c; simpl.
  - split; [|split]; [|intros k; rewrite elem_of_nil; tauto|done].
    intros k. unfold occurrences; simpl. lia.
  - destruct (IH (Counter_incr x c)) as (Hg & Hk & Hn).
    split; [|split].
    + intros k. rewrite Hg, items_get_incr, occurrences_cons.
      repeat case_decide; subst; (congruence || lia).
    + intros k. rewrite Hk, cles_incr, elem_of_cons. tauto.
    + intros Hc. by apply Hn, NoDup_incr.
Qed.

Lemma items_get_elem (c : list (string * Z)) (k : string) (n : Z) :
  NoDup c.*1 → (k, n) ∈ c ↔ k ∈ c.*1 ∧ items_get c k = n.
Proof.
  induction c as [|[k0 n0] c IH]; simpl; intros Hc.
  - rewrite !elem_of_nil. tauto.
  - apply NoDup_cons in Hc as [Hk0 Hc].
    rewrite !elem_of_cons, (IH Hc).
    case_decide; subst; split.
    + intros [[= ->]|[? _]]; [tauto|done].
    + intros [_ ->]. by left.
    + intros [[= -> ->]|[? ?]]; [done|tauto].
    + intros [[?|?] ?]; [done|tauto].
Qed.

(** The items of [Counter(l)] are the elements of [l], each with its
    number of occurrences. *)
Lemma Counter_items_spec (l : list string) (k : string) (n : Z) :
  (k, n) ∈ Counter_items l ↔ k ∈ l ∧ n = Z.of_nat (occurrences k l).
Proof.
  destruct (foldl_incr l []) as (Hg & Hk & Hn).
  unfold Counter_items.
  rewrite items_get_elem by (apply Hn; constructor).
  rewrite Hk, Hg; simpl. rewrite elem_of_nil.
  split; intros [? ?]; split; (tauto || lia).
Qed.

(** ** Feasibility check *)

Lemma faisabilite_boucle_eq
    (besoins : list (string * Z)) (possible : bool) (w : Monde) :
  faisabilite_boucle besoins possible w
  = (possible && bool_decide (manquants w besoins = []),
     mkMonde (alerteur w) (inventaire w)
       (journal w ++ map ligne_manque (manquants w besoins))).
Proof.
  revert possible w. induction besoins as [|[p q] reste IH]; intros possible w.
  - destruct w as [a i j]; simpl. by rewrite app_nil_r, andb_true_r.
  - destruct w as [a i j].
    unfold manquants, compte in *; cbn [faisabilite_boucle List.filter fst snd].
    unfold bind at 1. unfold quantite_comptable at 1. exec.
    destruct (Counter_get (_comptes i) p <? q)%Z.
    + rewrite IH; simpl. rewrite andb_false_r. by rewrite <- app_assoc.
    + rewrite IH; simpl. reflexivity.
Qed.

Lemma manquants_nil (w : Monde) (demandes : list string) :
  manquants w (Counter_items demandes) = []
  ↔ ∀ p, p ∈ demandes → (Z.of_nat (occurrences p demandes) ≤ compte w p)%Z.
Proof.
  unfold manquants. split.
  - intros Hnil p Hp.
    destruct (Z.leb_spec (Z.of_nat (occurrences p demandes)) (compte w p))
      as [|Hlt]; [done|].
    assert ((p, Z.of_nat (occurrences p demandes))
            ∈ List.filter (λ pq, (compte w pq.1 <? pq.2)%Z)
                (Counter_items demandes)) as Hin.
    { apply list_elem_of_In, filter_In. split.
      - by apply list_elem_of_In, Counter_items_spec.
      - simpl. by apply Z.ltb_lt. }
    rewrite Hnil in Hin. by apply elem_of_nil in Hin.
  - intros H.
    destruct (List.filter _ _) as [|[p q] r] eqn:E; [done|].
    assert (In (p, q) (List.filter (λ pq, (compte w pq.1 <? pq.2)%Z)
                         (Counter_items demandes))) as Hin
      by (rewrite E; by left).
    apply filter_In in Hin as [Hin Hlt]; simpl in Hlt.
    apply list_elem_of_In, Counter_items_spec in Hin as [Hp ->].
    apply Z.ltb_lt in Hlt. specialize (H p Hp). lia.
Qed.

Lemma _verifier_faisabilite_eq (demandes : list string) (w : Monde) :
  let m := manquants w (Counter_items demandes) in
  _verifier_faisabilite demandes w
  = (bool_decide (m = []),
     mkMonde (alerteur w) (inventaire w) (journal w ++ map ligne_manque m)).
Proof. unfold _verifier_faisabilite. by rewrite faisabilite_boucle_eq. Qed.

Lemma _verifier_faisabilite_vrai (demandes : list string) (w : Monde) :
  (_verifier_faisabilite demandes w).1 = true →
  (_verifier_faisabilite demandes w).2 = w
  ∧ ∀ p, p ∈ demandes → (Z.of_nat (occurrences p demandes) ≤ compte w p)%Z.
Proof.
  rewrite _verifier_faisabilite_eq; simpl. intros H%bool_decide_eq_true.
  split; [|by apply manquants_nil].
  rewrite H; simpl. rewrite app_nil_r. by destruct w.
Qed.

Lemma manquants_cons (w : Monde) (demandes : list string) :
  manquants w (Counter_items demandes) ≠ []
  ↔ ∃ p, p ∈ demandes ∧ (compte w p < Z.of_nat (occurrences p demandes))%Z.
Proof.
  split.
  - intros Hne. unfold manquants in Hne.
    destruct (List.filter _ _) as [|[p q] r] eqn:E; [done|].
    assert (In (p, q) (List.filter (λ pq, (compte w pq.1 <? pq.2)%Z)
                         (Counter_items demandes))) as Hin
      by (rewrite E; by left).
    apply filter_In in Hin as [Hin Hlt]; simpl in Hlt.
    apply list_elem_of_In, Counter_items_spec in Hin as [Hp ->].
    apply Z.ltb_lt in Hlt. by exists p.
  - intros (p & Hp & Hlt) Hnil.
    pose proof (proj1 (manquants_nil w demandes) Hnil p Hp). lia.
Qed.

Lemma traiter_commande_rejet_eq (texte : string) (w : Monde) :
  (_verifier_faisabilite (_parser texte) w).1 = false →
  traiter_commande texte true w
  = ([], mkMonde (alerteur w) (inventaire w)
           (journal w
            ++ map ligne_manque (manquants w (Counter_items (_parser texte)))
            ++ [Print "!!! COMMANDE ANNULEE : Stock insuffisant."])).
Proof.
  intros Hrej. unfold traiter_commande.
  unfold bind at 1. cbv zeta. rewrite Hrej. cbn [negb].
  rewrite _verifier_faisabilite_eq. exec. by rewrite <- app_assoc.
Qed.

(** C3.  [traiter_commande texte True] rejects exactly when some
    demanded product is required, all its occurrences in the demand
    grouped, in a quantity above its current ledger value.  A rejected
    call returns the empty package and leaves the inventory (every
    ledger value and every queue) and the alert log exactly as they
    were; it only prints the missing products and the cancellation. *)
Theorem rejet_sans_mutation (texte : string) (w : Monde) :
  let demandes := _parser texte in
  let r := traiter_commande texte true w in
  ((_verifier_faisabilite demandes w).1 = false
   ↔ ∃ p, p ∈ demandes ∧ (compte w p < Z.of_nat (occurrences p demandes))%Z)
  ∧ ((_verifier_faisabilite demandes w).1 = false →
     r.1 = []
     ∧ inventaire r.2 = inventaire w
     ∧ alerteur r.2 = alerteur w
     ∧ (∀ p, (quantite_comptable p r.2).1 = (quantite_comptable p w).1)
     ∧ journal r.2
       = (journal w
          ++ map ligne_manque (manquants w (Counter_items demandes))
          ++ [Print "!!! COMMANDE ANNULEE : Stock insuffisant."])%list).
Proof.
  intros demandes r. split.
  - rewrite _verifier_faisabilite_eq; simpl.
    rewrite bool_decide_eq_false. apply manquants_cons.
  - intros Hrej. unfold r.
    by rewrite (traiter_commande_rejet_eq texte w Hrej).
Qed.

Lemma rejet_sans_mutation_temoin :
  let w := GestionnaireCommandes_init (Some "A1, A1, B2, C3, A3") in
  let r := traiter_commande "A1, A1, A1" true w in
  r.1 = [] ∧ inventaire r.2 = inventaire w ∧ alerteur r.2 = alerteur w.
Proof.
  intros w r.
  destruct (rejet_sans_mutation "A1, A1, A1" w) as [_ H].
  destruct (H eq_refl) as (H1 & H2 & H3 & _).
  exact (conj H1 (conj H2 H3)).
Defined.

(** ** Assembly of a package *)

Lemma sortir_tous_cons (p : string) (d : list string) (w : Monde) :
  sortir_tous (p :: d) w
  = ((sortir p w).1 :: (sortir_tous d (sortir p w).2).1,
     (sortir_tous d (sortir p w).2).2).
Proof. reflexivity. Qed.

Lemma assembler_boucle_eq (d acc : list string) (w : Monde) :
  assembler_boucle d acc w
  = ((acc ++ colis_de (sortir_tous d w).1)%list, (sortir_tous d w).2).
Proof.
  revert acc w. induction d as [|p d IH]; intros acc w.
  - simpl. by rewrite app_nil_r.
  - rewrite sortir_tous_cons. cbn [assembler_boucle fst snd colis_de].
    unfold bind at 1. cbv zeta.
    destruct (sortir p w).1 as [u|]; [destruct (Py.truthy u)|];
      rewrite IH; [|done..].
    by rewrite <- app_assoc.
Qed.

Lemma _assembler_colis_eq (d : list string) (w : Monde) :
  _assembler_colis d w
  = (_trier_par_volume (colis_de (sortir_tous d w).1), (sortir_tous d w).2).
Proof.
  unfold _assembler_colis, bind, ret. cbv zeta.
  by rewrite assembler_boucle_eq.
Qed.

Lemma traiter_commande_accepte (texte : string) (strict : bool) (w : Monde) :
  strict = false ∨ (_verifier_faisabilite (_parser texte) w).1 = true →
  traiter_commande texte strict w
  = (_trier_par_volume (colis_de (sortir_tous (_parser texte) w).1),
     (sortir_tous (_parser texte) w).2).
Proof.
  intros H. unfold traiter_commande. destruct strict.
  - destruct H as [|H]; [done|].
    unfold bind at 1. cbv zeta. rewrite H. cbn [negb].
    destruct (_verifier_faisabilite_vrai _ _ H) as [-> _].
    apply _assembler_colis_eq.
  - apply _assembler_colis_eq.
Qed.

Lemma traiter_commande_rejet (texte : string) (w : Monde) :
  (_verifier_faisabilite (_parser texte) w).1 = false →
  (traiter_commande texte true w).1 = []
  ∧ inventaire (traiter_commande texte true w).2 = inventaire w.
Proof.
  intros H. by rewrite (traiter_commande_rejet_eq texte w H).
Qed.

(** ** Invariants of the inventory *)

Lemma coherent_inventaire (w w' : Monde) :
  inventaire w = inventaire w' → coherent w → coherent w'.
Proof.
  unfold coherent, comptes_bornes, unites_conformes, compte, file.
  by intros <-.
Qed.

Lemma coherent_ajouter (p : string) (w : Monde) :
  coherent w → coherent (ajouter p w).2.
Proof.
  intros [Hc Hu]. split; [by apply comptes_bornes_ajouter|].
  intros q. rewrite file_ajouter. case_decide; subst; [|apply Hu].
  apply Forall_app. split; [apply Hu|by constructor].
Qed.

Lemma unites_conformes_sortir (p : string) (w : Monde) :
  unites_conformes w → unites_conformes (sortir p w).2.
Proof.
  intros Hu q. rewrite file_sortir. case_decide; subst; [|apply Hu].
  specialize (Hu p). destruct (file w p); [done|]. by inv Hu.
Qed.

Lemma coherent_sortir (p : string) (w : Monde) :
  coherent w → coherent (sortir p w).2.
Proof.
  intros [Hc Hu].
  split; [by apply comptes_bornes_sortir|by apply unites_conformes_sortir].
Qed.

Lemma coherent_for_ajouter (l : list string) (w : Monde) :
  coherent w → coherent (for_ l ajouter w).2.
Proof.
  revert w. induction l as [|p l IH]; intros w H; [done|].
  rewrite for_cons. by apply IH, coherent_ajouter.
Qed.

Lemma coherent_sortir_tous (d : list string) (w : Monde) :
  coherent w → coherent (sortir_tous d w).2.
Proof.
  revert w. induction d as [|p d IH]; intros w H; [done|].
  rewrite sortir_tous_cons. by apply IH, coherent_sortir.
Qed.

Lemma coherent_vide : coherent monde_vide.
Proof.
  split; [apply comptes_bornes_frais|].
  intros p. unfold file; simpl. by rewrite lookup_empty.
Qed.

Lemma coherent__traiter_arrivage (texte : string) (w : Monde) :
  coherent w → coherent (_traiter_arrivage texte w).2.
Proof.
  intros H. apply (coherent_inventaire (for_ (_parser texte) ajouter w).2).
  - reflexivity.
  - by apply coherent_for_ajouter.
Qed.

Lemma coherent_traiter_commande (texte : string) (strict : bool) (w : Monde) :
  coherent w → coherent (traiter_commande texte strict w).2.
Proof.
  intros H.
  destruct strict;
    [destruct (_verifier_faisabilite (_parser texte) w).1 eqn:E|].
  - rewrite traiter_commande_accepte by auto. by apply coherent_sortir_tous.
  - apply (coherent_inventaire w); [|done].
    symmetry. by apply traiter_commande_rejet.
  - rewrite traiter_commande_accepte by auto. by apply coherent_sortir_tous.
Qed.

Lemma atteignable_coherent (w : Monde) : atteignable w → coherent w.
Proof.
  induction 1 as [init|w texte _ IH|w texte strict _ IH|w _ IH].
  - destruct init as [texte|]; simpl; [|apply coherent_vide].
    destruct (Py.truthy texte); [|apply coherent_vide].
    apply coherent__traiter_arrivage, coherent_vide.
  - by apply coherent__traiter_arrivage.
  - by apply coherent_traiter_commande.
  - apply (coherent_inventaire w); [|done].
    destruct (afficher_tout_journal w) as (? & ? & ? & _ & Hj).
    unfold afficher_etat. by rewrite Hj.
Qed.

(** ** Orders placed through the facade *)

Lemma resultat_sortir_conforme (p : string) (w : Monde) :
  unites_conformes w → (sortir p w).1 = None ∨ (sortir p w).1 = Some p.
Proof.
  intros Hu. rewrite resultat_sortir. specialize (Hu p).
  destruct (file w p) as [|u q]; [by left|].
  inv Hu. by right.
Qed.

Lemma sortir_tous_complet (d : list string) (w : Monde) :
  unites_conformes w →
  (∀ p, (occurrences p d ≤ length (file w p))%nat) →
  (sortir_tous d w).1 = map Some d.
Proof.
  revert w. induction d as [|p d IH]; intros w Hu Hocc; [done|].
  rewrite sortir_tous_cons. cbn [fst map]. f_equal.
  - pose proof (Hocc p) as Hp. rewrite occurrences_cons, decide_True in Hp by done.
    destruct (resultat_sortir_conforme p w Hu) as [Hn|Hs]; [|done].
    rewrite resultat_sortir in Hn. destruct (file w p); simpl in *; [lia|done].
  - apply IH; [by apply unites_conformes_sortir|].
    intros q. rewrite file_sortir. specialize (Hocc q).
    rewrite occurrences_cons in Hocc.
    destruct (decide (q = p)) as [->|Hne].
    + rewrite decide_True in Hocc by done.
      destruct (file w p); simpl in *; lia.
    + rewrite decide_False in Hocc by congruence. lia.
Qed.

Lemma colis_de_complet (d : list string) :
  Forall (λ t, t ≠ "") d → colis_de (map Some d) = d.
Proof.
  induction 1 as [|t d Ht _ IH]; [done|].
  simpl. rewrite IH. by destruct t.
Qed.

Lemma journal_sortir_tous_complet (d : list string) (w : Monde) :
  (sortir_tous d w).1 = map Some d →
  ∃ alertes,
    journal (sortir_tous d w).2 = (journal w ++ map LogWarning alertes)%list.
Proof.
  revert w. induction d as [|p d IH]; intros w H.
  - exists []. simpl. by rewrite app_nil_r.
  - rewrite sortir_tous_cons in H |- *. cbn [fst snd map] in *.
    injection H as Hp Hd.
    destruct (IH _ Hd) as (al & ->).
    rewrite journal_sortir, Hp, app_nil_r.
    exists ((if (compte w p - 1 <? 2)%Z
             then [texte_alerte p (compte w p - 1)] else []) ++ al)%list.
    rewrite map_app, <- app_assoc. by destruct (_ <? 2)%Z.
Qed.

Lemma colis_de_sublist (d : list string) (w : Monde) :
  unites_conformes w → colis_de (sortir_tous d w).1 `sublist_of` d.
Proof.
  revert w. induction d as [|p d IH]; intros w Hu; [constructor|].
  rewrite sortir_tous_cons. cbn [fst colis_de].
  pose proof (IH _ (unites_conformes_sortir p w Hu)) as Hs.
  destruct (resultat_sortir_conforme p w Hu) as [->| ->].
  - by apply sublist_cons.
  - destruct (Py.truthy p); [by apply sublist_skip|by apply sublist_cons].
Qed.

Lemma occurrences_sublist (x : string) (l1 l2 : list string) :
  l1 `sublist_of` l2 → (occurrences x l1 ≤ occurrences x l2)%nat.
Proof.
  induction 1 as [|y l1 l2 _ IH|y l1 l2 _ IH];
    rewrite ?occurrences_cons; [done|lia|lia].
Qed.

Lemma occurrences_perm (x : string) (l1 l2 : list string) :
  l1 ≡ₚ l2 → occurrences x l1 = occurrences x l2.
Proof. intros H. unfold occurrences. by rewrite H. Qed.

Lemma _trier_par_volume_perm (l : list string) : _trier_par_volume l ≡ₚ l.
Proof. apply sort_reverse_perm. Qed.

Lemma faisable_couvert (d : list string) (w : Monde) :
  coherent w →
  (_verifier_faisabilite d w).1 = true →
  ∀ p, (occurrences p d ≤ length (file w p))%nat.
Proof.
  intros [Hc _] Hf p.
  destruct (_verifier_faisabilite_vrai d w Hf) as [_ Hd].
  destruct (decide (p ∈ d)) as [Hp|Hp].
  - specialize (Hd p Hp). specialize (Hc p). lia.
  - rewrite occurrences_pos in Hp. lia.
Qed.

Lemma commande_stricte_acceptee (texte : string) (w : Monde) :
  coherent w →
  (_verifier_faisabilite (_parser texte) w).1 = true →
  (sortir_tous (_parser texte) w).1 = map Some (_parser texte)
  ∧ traiter_commande texte true w
    = (_trier_par_volume (_parser texte), (sortir_tous (_parser texte) w).2).
Proof.
  intros Hw Hf.
  assert ((sortir_tous (_parser texte) w).1 = map Some (_parser texte)) as Hs.
  { apply sortir_tous_complet; [apply Hw|by apply faisable_couvert]. }
  split; [done|].
  rewrite traiter_commande_accepte by auto.
  by rewrite Hs, colis_de_complet by apply _parser_non_vide.
Qed.

(** C6 (as amended).  In a state reached through the operations of the
    facade, when the feasibility check of [traiter_commande texte True]
    passes, each [sortir] call of the assembly returns a unit (none
    returns [None], and no backorder notification is emitted: only
    low-stock warnings are), and the package, which is the demand sorted
    by volume, has one unit per demand token.  A package shorter than
    its demand therefore arises only from an order placed with
    [strict=False] or from a strict order that the feasibility check
    rejected, the rejection returning the empty package. *)
Theorem commande_stricte_complete (texte : string) (w : Monde) :
  atteignable w →
  let d := _parser texte in
  ((_verifier_faisabilite d w).1 = true →
   let r := traiter_commande texte true w in
   length r.1 = length d
   ∧ r.1 = _trier_par_volume d
   ∧ (sortir_tous d w).1 = map Some d
   ∧ r.2 = (sortir_tous d w).2
   ∧ ∃ alertes, journal r.2 = (journal w ++ map LogWarning alertes)%list)
  ∧ (∀ strict : bool,
       length (traiter_commande texte strict w).1 < length d →
       strict = false ∨ (_verifier_faisabilite d w).1 = false).
Proof.
  intros Hw%atteignable_coherent d.
  assert ((_verifier_faisabilite d w).1 = true →
          length (traiter_commande texte true w).1 = length d) as Hlen.
  { intros Hf. destruct (commande_stricte_acceptee texte w Hw Hf) as [_ ->].
    simpl. by rewrite _trier_par_volume_perm. }
  split.
  - intros Hf r. split; [by apply Hlen|].
    destruct (commande_stricte_acceptee texte w Hw Hf) as [Hs Hr].
    unfold r. rewrite Hr. cbn [fst snd].
    repeat split; [done|]. by apply journal_sortir_tous_complet.
  - intros [|] Hlt; [|by left].
    destruct (_verifier_faisabilite d w).1 eqn:Hf; [|by right].
    specialize (Hlen eq_refl). lia.
Qed.

Lemma commande_stricte_complete_temoin :
  let w := GestionnaireCommandes_init (Some "A1, A1, B2, C3, A3") in
  length (traiter_commande "A1 B2 C3 A3" true w).1 = 4
  ∧ (false = false
     ∨ (_verifier_faisabilite (_parser "A1, A1, A1") w).1 = false)
  ∧ (true = false
     ∨ (_verifier_faisabilite (_parser "A1, A1, A1") w).1 = false).
Proof.
  intros w.
  destruct (commande_stricte_complete "A1 B2 C3 A3" w
              (att_init (Some "A1, A1, B2, C3, A3"))) as [H _].
  destruct (commande_stricte_complete "A1, A1, A1" w
              (att_init (Some "A1, A1, B2, C3, A3"))) as [_ H'].
  assert (length (traiter_commande "A1, A1, A1" false w).1
          < length (_parser "A1, A1, A1")) as Hpartiel
    by (vm_compute; lia).
  assert (length (traiter_commande "A1, A1, A1" true w).1
          < length (_parser "A1, A1, A1")) as Hrejet
    by (vm_compute; lia).
  split; [|split].
  - exact (proj1 (H eq_refl)).
  - exact (H' false Hpartiel).
  - exact (H' true Hrejet).
Defined.

(** C6 (counterexample).  A shorter package also arises under
    [strict=True]: on the state seeded with A1, A1, B2, C3, A3 the
    strict order of three A1 is rejected and returns the empty package
    for a demand of three tokens. *)
Lemma commande_stricte_rejetee_courte :
  let w := GestionnaireCommandes_init (Some "A1, A1, B2, C3, A3") in
  atteignable w
  ∧ _parser "A1, A1, A1" = ["A1"; "A1"; "A1"]
  ∧ (traiter_commande "A1, A1, A1" true w).1 = []
  ∧ ¬ (∀ (texte : string) (strict : bool) (w' : Monde),
         atteignable w' →
         length (traiter_commande texte strict w').1 < length (_parser texte) →
         strict = false).
Proof.
  intros w. split; [apply att_init|]. split; [reflexivity|].
  split; [reflexivity|].
  intros H.
  assert (length (traiter_commande "A1, A1, A1" true w).1
          < length (_parser "A1, A1, A1")) as Hlt by (vm_compute; lia).
  pose proof (H "A1, A1, A1" true w (att_init _) Hlt) as Habs.
  discriminate Habs.
Qed.

(** C7.  Whatever the strategy, the package [traiter_commande] returns
    is the raw package (the units the successive [sortir] calls
    returned, in call order; nothing when the order is rejected) sorted
    by non-increasing volume: it is a permutation of the raw package,
    each unit has a volume at least that of every later unit, and units
    of equal volume keep their dispatch order.  Units dispatched as A1,
    B2, C3, A3 come out as C3, A3, B2, A1. *)
Theorem colis_trie_par_volume (texte : string) (strict : bool) (w : Monde) :
  let d := _parser texte in
  let r := traiter_commande texte strict w in
  let brut :=
    if strict && negb (_verifier_faisabilite d w).1 then []
    else colis_de (sortir_tous d w).1 in
  r.1 = _trier_par_volume brut
  ∧ r.1 ≡ₚ brut
  ∧ StronglySorted (decroissant _extraire_vol) r.1
  ∧ (∀ v, filter (λ u, _extraire_vol u = v) r.1
          = filter (λ u, _extraire_vol u = v) brut)
  ∧ _trier_par_volume ["A1"; "B2"; "C3"; "A3"] = ["C3"; "A3"; "B2"; "A1"]
  ∧ (let g := GestionnaireCommandes_init (Some "A1, A1, B2, C3, A3") in
     (sortir_tous (_parser "A1 B2 C3 A3") g).1
     = [Some "A1"; Some "B2"; Some "C3"; Some "A3"]
     ∧ (traiter_commande "A1 B2 C3 A3" true g).1 = ["C3"; "A3"; "B2"; "A1"]
     ∧ (traiter_commande "A1 B2 C3 A3" false g).1 = ["C3"; "A3"; "B2"; "A1"]).
Proof.
  intros d r brut.
  assert (r.1 = _trier_par_volume brut) as Hr.
  { unfold r, brut. destruct strict; cbn [andb];
      [destruct (_verifier_faisabilite d w).1 eqn:Hf; cbn [negb]|].
    - by rewrite traiter_commande_accepte by auto.
    - by rewrite traiter_commande_rejet_eq.
    - by rewrite traiter_commande_accepte by auto. }
  rewrite Hr. repeat split.
  - apply _trier_par_volume_perm.
  - apply sort_reverse_sorted.
  - intros v. apply sort_reverse_stable.
Qed.

Lemma colis_dans_demande (texte : string) (strict : bool) (x : string) (w : Monde) :
  unites_conformes w →
  (occurrences x (traiter_commande texte strict w).1
   ≤ occurrences x (_parser texte))%nat.
Proof.
  intros Hu.
  assert (strict = false ∨ (_verifier_faisabilite (_parser texte) w).1 = true
          ∨ (strict = true ∧ (_verifier_faisabilite (_parser texte) w).1 = false))
    as [H|[H|[-> H]]].
  { destruct strict, (_verifier_faisabilite (_parser texte) w).1; auto. }
  - rewrite traiter_commande_accepte by auto. cbn [fst].
    rewrite (occurrences_perm _ _ _ (_trier_par_volume_perm _)).
    by apply occurrences_sublist, colis_de_sublist.
  - rewrite traiter_commande_accepte by auto. cbn [fst].
    rewrite (occurrences_perm _ _ _ (_trier_par_volume_perm _)).
    by apply occurrences_sublist, colis_de_sublist.
  - rewrite traiter_commande_rejet_eq by done. cbn [fst].
    unfold occurrences at 1; simpl. lia.
Qed.

(** C10.  In a state reached through the operations of the facade,
    every unit stored in the queue of a product is the name of that
    product; so [sortir p] returns [None] or [p] itself, and in a
    package returned by [traiter_commande] each element occurs at most
    as many times as among the demand tokens of that call, and in
    particular is one of them. *)
Theorem unites_et_colis (w : Monde) :
  atteignable w →
  (∀ (p : string) (q : list string) (u : string),
      _files (inventaire w) !! p = Some q → u ∈ q → u = p)
  ∧ (∀ p : string, (sortir p w).1 = None ∨ (sortir p w).1 = Some p)
  ∧ (∀ (texte : string) (strict : bool) (x : string),
      (occurrences x (traiter_commande texte strict w).1
       ≤ occurrences x (_parser texte))%nat
      ∧ (x ∈ (traiter_commande texte strict w).1 → x ∈ _parser texte)).
Proof.
  intros [_ Hu]%atteignable_coherent. split; [|split].
  - intros p q u Hq Hin. specialize (Hu p). unfold file in Hu.
    rewrite Hq in Hu; simpl in Hu. rewrite Forall_forall in Hu. by apply Hu.
  - intros p. by apply resultat_sortir_conforme.
  - intros texte strict x.
    pose proof (colis_dans_demande texte strict x w Hu) as Hle.
    split; [done|]. rewrite !occurrences_pos. lia.
Qed.

Lemma unites_et_colis_temoin :
  let w := GestionnaireCommandes_init (Some "A1, A1, B2, C3, A3") in
  ((sortir "A1" w).1 = None ∨ (sortir "A1" w).1 = Some "A1")
  ∧ (occurrences "A1" (traiter_commande "A1, A1, A1" false w).1
     ≤ occurrences "A1" (_parser "A1, A1, A1"))%nat.
Proof.
  intros w.
  destruct (unites_et_colis w (att_init (Some "A1, A1, B2, C3, A3")))
    as (_ & Hs & Hc).
  split.
  - exact (Hs "A1").
  - exact (proj1 (Hc "A1, A1, A1" false "A1")).
Defined.

(** ** Volume of a product name *)

Lemma chiffre_ordinaire (c : ascii) :
  est_chiffre c = true →
  Py.int_isspace c = false ∧ Ascii.eqb c "_" = false
  ∧ Ascii.eqb c "+" = false ∧ Ascii.eqb c "-" = false.
Proof.
  destruct c as [[] [] [] [] [] [] [] []]; vm_compute; intros H;
    (discriminate H || done).
Qed.

Lemma etranger_ordinaire (c : ascii) :
  etranger c = true →
  Py.digit_value c = None ∧ Py.int_isspace c = false
  ∧ Ascii.eqb c "_" = false ∧ Ascii.eqb c "+" = false
  ∧ Ascii.eqb c "-" = false.
Proof.
  destruct c as [[] [] [] [] [] [] [] []]; vm_compute; intros H;
    (discriminate H || done).
Qed.

Lemma int_scan_chiffres (s : string) (acc : N) (n : nat) :
  tous_chiffres s = true →
  Py.int_scan false acc n s
  = Some (valeur_decimale acc s, n + String.length s, "").
Proof.
  revert acc n. induction s as [|c s IH]; intros acc n H; simpl in *.
  - by rewrite Nat.add_0_r.
  - apply andb_prop in H as [Hc Hs].
    destruct (chiffre_ordinaire c Hc) as (_ & -> & _).
    unfold est_chiffre in Hc.
    destruct (Py.digit_value c) as [d|]; [|done].
    rewrite IH by done. by rewrite Nat.add_succ_r.
Qed.

Lemma int_chiffres (ds : string) :
  ds ≠ "" → tous_chiffres ds = true →
  (String.length ds ≤ Py.int_max_str_digits)%nat →
  Py.int ds = Some (Z.of_N (valeur_decimale 0 ds)).
Proof.
  intros Hne Hd Hlen. destruct ds as [|c ds]; [done|].
  pose proof Hd as Hd'. simpl in Hd'. apply andb_prop in Hd' as [Hc _].
  destruct (chiffre_ordinaire c Hc) as (Hsp & Hus & Hpl & Hmi).
  unfold Py.int. cbn [Py.int_skip_space]. rewrite Hsp, Hpl, Hmi, Hus.
  rewrite int_scan_chiffres by done. cbn [Nat.add].
  apply Nat.ltb_ge in Hlen. rewrite Hlen.
  cbn [String.length Nat.eqb Py.int_skip_space].
  f_equal. lia.
Qed.

Lemma skip_space_etranger (s : string) :
  contient_etranger s = true → contient_etranger (Py.int_skip_space s) = true.
Proof.
  induction s as [|c s IH]; simpl; [done|]. intros H.
  destruct (Py.int_isspace c) eqn:Hc; [|done].
  apply orb_prop in H as [H|H]; [|by apply IH].
  apply etranger_ordinaire in H as (_ & H & _). congruence.
Qed.

Lemma int_scan_etranger (s : string) (b : bool) (acc : N) (n : nat) v n' rest :
  contient_etranger s = true →
  Py.int_scan b acc n s = Some (v, n', rest) →
  contient_etranger rest = true.
Proof.
  revert b acc n. induction s as [|c s IH]; intros b acc n H Hs; [done|].
  simpl in H, Hs. destruct (etranger c) eqn:Hc.
  - destruct (etranger_ordinaire c Hc) as (Hd & _ & Hus & _).
    rewrite Hus, Hd in Hs. destruct b; [done|].
    injection Hs as <- <- <-. simpl. by rewrite Hc.
  - simpl in H. destruct (Ascii.eqb c "_").
    + destruct b; [done|]. by eapply IH.
    + destruct (Py.digit_value c); [by eapply IH|].
      destruct b; [done|]. injection Hs as <- <- <-. simpl. by rewrite Hc.
Qed.

Lemma int_etranger (s : string) :
  contient_etranger s = true → Py.int s = None.
Proof.
  intros H%skip_space_etranger. unfold Py.int.
  destruct (Py.int_skip_space s) as [|c r]; [done|].
  assert (∀ (sg : Z) (s2 : string),
    contient_etranger s2 = true →
    (if match s2 with String c' _ => Ascii.eqb c' "_" | "" => false end
     then None
     else match Py.int_scan false 0%N 0 s2 with
          | None => None
          | Some (v, n, rest) =>
              if (Py.int_max_str_digits <? n)%nat then None
              else if (n =? 0)%nat then None
              else match Py.int_skip_space rest with
                   | "" => Some (sg * Z.of_N v)%Z
                   | _ => None
                   end
          end) = None) as Hcore.
  { intros sg s2 H2. destruct (match s2 with "" => false | _ => _ end); [done|].
    destruct (Py.int_scan false 0%N 0 s2) as [[[v n] rest]|] eqn:Hs; [|done].
    apply (int_scan_etranger _ _ _ _ _ _ _ H2), skip_space_etranger in Hs.
    destruct (Py.int_max_str_digits <? n)%nat; [done|].
    destruct (n =? 0)%nat; [done|].
    by destruct (Py.int_skip_space rest). }
  pose proof H as H0. simpl in H.
  destruct (etranger c) eqn:Hc.
  - destruct (etranger_ordinaire c Hc) as (_ & _ & _ & -> & ->).
    exact (Hcore 1%Z (String c r) H0).
  - simpl in H.
    destruct (Ascii.eqb c "+"); [exact (Hcore 1%Z r H)|].
    destruct (Ascii.eqb c "-"); [exact (Hcore (-1)%Z r H)|].
    exact (Hcore 1%Z (String c r) H0).
Qed.

Lemma suffixe_chiffres_tous (s : string) :
  tous_chiffres s = true → suffixe_chiffres s = s.
Proof.
  induction s as [|c s IH]; simpl; [done|].
  intros [Hc Hs]%andb_prop. rewrite (IH Hs), Hc, Nat.eqb_refl. done.
Qed.

(** C9 (as amended).  The volume of a token is read from the characters
    after its first character, whatever that first character is.  When
    they are a non-empty run of digits (of at most 4300 digits, the
    limit of integer conversion) the volume is the integer they write;
    it is then the integer written by the trailing digits of the token
    provided the first character is not itself a digit.  When the token
    has fewer than two characters, or a character after the first is
    neither a digit, an underscore, a sign nor whitespace, the volume
    is 0.  So A3 has volume 3 and C12 volume 12, while AB3 has volume 0
    and 12 has volume 2. *)
Theorem extraire_vol_queue :
  (∀ (c : ascii) (ds : string),
      ds ≠ "" → tous_chiffres ds = true →
      (String.length ds ≤ Py.int_max_str_digits)%nat →
      _extraire_vol (String c ds) = Z.of_N (valeur_decimale 0 ds)
      ∧ (est_chiffre c = false →
         _extraire_vol (String c ds) = volume_suffixe (String c ds)))
  ∧ _extraire_vol "" = 0%Z
  ∧ (∀ c : ascii, _extraire_vol (String c "") = 0%Z)
  ∧ (∀ (c : ascii) (s : string),
      contient_etranger s = true → _extraire_vol (String c s) = 0%Z)
  ∧ map _extraire_vol ["A3"; "C12"; "AB3"; "12"; "A"] = [3; 12; 0; 2; 0]%Z.
Proof.
  split; [|split; [|split; [|split]]]; try reflexivity.
  - intros c ds Hne Hd Hlen.
    assert (_extraire_vol (String c ds) = Z.of_N (valeur_decimale 0 ds)) as Hv.
    { unfold _extraire_vol. cbn [Py.slice_from_1]. by rewrite int_chiffres. }
    split; [done|]. intros Hc. rewrite Hv.
    unfold volume_suffixe. cbn [suffixe_chiffres].
    by rewrite Hc, suffixe_chiffres_tous.
  - intros c s H. unfold _extraire_vol. cbn [Py.slice_from_1].
    by rewrite int_etranger.
Qed.

Lemma extraire_vol_queue_temoin :
  _extraire_vol "A3" = 3%Z
  ∧ _extraire_vol "A3" = volume_suffixe "A3"
  ∧ _extraire_vol "A.3" = 0%Z.
Proof.
  destruct extraire_vol_queue as (Hchiffres & _ & _ & Hetranger & _).
  assert ("3" ≠ "") as Hne by discriminate.
  assert ((String.length "3" ≤ Py.int_max_str_digits)%nat) as Hlen
    by (unfold Py.int_max_str_digits; simpl; lia).
  destruct (Hchiffres "A"%char "3" Hne eq_refl Hlen) as [H3 Hs].
  split; [exact H3|]. split; [exact (Hs eq_refl)|].
  exact (Hetranger "A"%char ".3" eq_refl).
Defined.

(** C9 (counterexample).  The token AB3 ends with the digit 3, yet its
    volume is 0; the token 12 ends with the digits 12, yet its volume
    is 2. *)
Lemma extraire_vol_pas_suffixe :
  _extraire_vol "AB3" = 0%Z ∧ volume_suffixe "AB3" = 3%Z
  ∧ _extraire_vol "12" = 2%Z ∧ volume_suffixe "12" = 12%Z
  ∧ _extraire_vol "AB3" ≠ volume_suffixe "AB3".
Proof. repeat split; discriminate. Qed.

(** * Further properties *)

(** ** The parser *)

Lemma tous_app (P : ascii → bool) (s1 s2 : string) :
  tous P (s1 +:+ s2) = tous P s1 && tous P s2.
Proof.
  induction s1 as [|c s1 IH]; simpl; [done|].
  by rewrite IH, andb_assoc.
Qed.

Lemma split_go_tous (P : ascii → bool) (s cur : string) :
  tous P cur = true →
  tous (λ c, Py.isspace c || P c) s = true →
  Forall (λ t, tous P t = true) (Py.split_go cur s).
Proof.
  revert cur. induction s as [|c s IH]; intros cur Hcur Hs; simpl in *.
  - destruct cur; repeat constructor; done.
  - apply andb_prop in Hs as [Hc Hs].
    destruct (Py.isspace c) eqn:Hsp.
    + apply Forall_app. split; [|by apply IH].
      destruct cur; repeat constructor; done.
    + apply IH; [|done]. rewrite tous_app, Hcur. simpl in *. by rewrite Hc.
Qed.

Lemma append_non_vide (s : string) (c : ascii) : s +:+ String c "" ≠ "".
Proof. by destruct s. Qed.

Lemma split_go_non_vide (s cur : string) :
  Forall (λ t, t ≠ "") (Py.split_go cur s).
Proof.
  revert cur. induction s as [|c s IH]; intros cur; simpl.
  - destruct cur; repeat constructor; done.
  - destruct (Py.isspace c); [|apply IH].
    apply Forall_app. split; [|apply IH].
    destruct cur; repeat constructor; done.
Qed.

Lemma rstrip_sans_espace (t : string) :
  tous (λ c, negb (Py.isspace c)) t = true → Py.rstrip t = t.
Proof.
  induction t as [|c t IH]; simpl; [done|].
  intros [Hc Ht]%andb_prop. rewrite (IH Ht).
  destruct t; [|done]. by destruct (Py.isspace c).
Qed.

Lemma strip_sans_espace (t : string) :
  tous (λ c, negb (Py.isspace c)) t = true → Py.strip t = t.
Proof.
  intros H. unfold Py.strip. rewrite rstrip_sans_espace by done.
  destruct t as [|c t]; [done|]. simpl in *.
  apply andb_prop in H as [Hc _]. by destruct (Py.isspace c).
Qed.

Lemma replace_virgule_tous (s : string) :
  tous (λ c, Py.isspace c || hors_separateur c) (Py.replace "," " " s) = true.
Proof.
  induction s as [|c s IH]; simpl; [done|]. rewrite IH, andb_true_r.
  unfold hors_separateur, est_separateur.
  destruct (Ascii.eqb_spec c ",") as [->|Hne]; [done|].
  destruct (Py.isspace c); simpl; [done|].
  by destruct (Ascii.eqb_spec c ",").
Qed.

Lemma hors_separateur_sans_espace (t : string) :
  tous hors_separateur t = true → tous (λ c, negb (Py.isspace c)) t = true.
Proof.
  induction t as [|c t IH]; simpl; [done|].
  intros [Hc Ht]%andb_prop. rewrite (IH Ht), andb_true_r.
  unfold hors_separateur, est_separateur in Hc. by destruct (Py.isspace c).
Qed.

Lemma split_replace_jetons (texte : string) :
  Forall (λ t, t ≠ "" ∧ tous hors_separateur t = true)
    (Py.split (Py.replace "," " " texte)).
Proof.
  apply Forall_and. split; [apply split_go_non_vide|].
  apply split_go_tous; [done|apply replace_virgule_tous].
Qed.

Lemma filter_map_strip (l : list string) :
  Forall (λ t, t ≠ "" ∧ tous hors_separateur t = true) l →
  map Py.strip (List.filter (λ x, Py.truthy (Py.strip x)) l) = l.
Proof.
  induction 1 as [|t l [Hne Ht] _ IH]; [done|]. simpl.
  rewrite (strip_sans_espace t) by by apply hors_separateur_sans_espace.
  destruct t; [done|]. simpl.
  rewrite IH. f_equal.
  by apply (strip_sans_espace (String _ _)), hors_separateur_sans_espace.
Qed.

Lemma _parser_split (texte : string) :
  _parser texte = Py.split (Py.replace "," " " texte).
Proof.
  unfold _parser. destruct texte as [|c texte]; [done|]. cbn [Py.truthy negb].
  apply filter_map_strip, split_replace_jetons.
Qed.

(** X1.  [_parser] returns exactly the maximal runs of characters that
    are neither whitespace nor commas: stripping and filtering change
    nothing after the split, and every token is non-empty and free of
    whitespace and commas. *)
Theorem parser_jetons (texte : string) :
  _parser texte = Py.split (Py.replace "," " " texte)
  ∧ Forall (λ t, t ≠ "" ∧ tous hors_separateur t = true) (_parser texte).
Proof.
  split; [apply _parser_split|].
  rewrite _parser_split. apply split_replace_jetons.
Qed.

Lemma replace_app (o n : ascii) (s1 s2 : string) :
  Py.replace o n (s1 +:+ s2) = Py.replace o n s1 +:+ Py.replace o n s2.
Proof. induction s1 as [|c s1 IH]; simpl; [done|]. by rewrite IH. Qed.

Lemma split_go_app_sep (s1 s2 cur : string) (c : ascii) :
  Py.isspace c = true →
  Py.split_go cur (s1 +:+ String c s2)
  = (Py.split_go cur s1 ++ Py.split_go "" s2)%list.
Proof.
  intros Hc. revert cur. induction s1 as [|c1 s1 IH]; intros cur; simpl.
  - by rewrite Hc.
  - destruct (Py.isspace c1); [|apply IH].
    by rewrite IH, app_assoc.
Qed.

Lemma append_cons_assoc (s1 s2 : string) (c : ascii) :
  (s1 +:+ String c "") +:+ s2 = s1 +:+ String c s2.
Proof.
  induction s1 as [|c1 s1 IH]; [done|].
  change (String c1 ((s1 +:+ String c "") +:+ s2) = String c1 (s1 +:+ String c s2)).
  by rewrite IH.
Qed.

Lemma append_vide_r (s : string) : s +:+ "" = s.
Proof.
  induction s as [|c s IH]; [done|].
  change (String c (s +:+ "") = String c s). by rewrite IH.
Qed.

Lemma split_go_sans_espace (t cur : string) :
  tous (λ c, negb (Py.isspace c)) t = true →
  Py.split_go cur t = Py.flush (cur +:+ t).
Proof.
  revert cur. induction t as [|c t IH]; intros cur H; simpl in *.
  - by rewrite append_vide_r.
  - apply andb_prop in H as [Hc Ht].
    destruct (Py.isspace c); [done|].
    rewrite IH by done. by rewrite append_cons_assoc.
Qed.

Lemma replace_hors_separateur (t : string) :
  tous hors_separateur t = true → Py.replace "," " " t = t.
Proof.
  induction t as [|c t IH]; simpl; [done|].
  intros [Hc Ht]%andb_prop. rewrite (IH Ht).
  unfold hors_separateur, est_separateur in Hc.
  destruct (Ascii.eqb c ","); [|done].
  by rewrite orb_true_r in Hc.
Qed.

(** X2.  Commas and whitespace are interchangeable separators and the
    parser works piecewise: the tokens of two texts joined by one
    separator character are the tokens of the first followed by those
    of the second; a non-empty text without any separator is a single
    token, itself. *)
Theorem parser_concatenation :
  (∀ (t1 t2 : string) (sep : ascii),
      est_separateur sep = true →
      _parser (t1 +:+ String sep t2) = (_parser t1 ++ _parser t2)%list)
  ∧ (∀ t : string,
      t ≠ "" → tous hors_separateur t = true → _parser t = [t]).
Proof.
  split.
  - intros t1 t2 sep Hsep. rewrite !_parser_split, replace_app.
    cbn [Py.replace]. unfold Py.split. apply split_go_app_sep.
    unfold est_separateur in Hsep.
    destruct (Ascii.eqb sep ","); [done|].
    by rewrite orb_false_r in Hsep.
  - intros t Hne Ht. rewrite _parser_split, replace_hors_separateur by done.
    unfold Py.split.
    rewrite split_go_sans_espace by by apply hors_separateur_sans_espace.
    by destruct t.
Qed.

Lemma parser_concatenation_temoin :
  _parser ("A1 B2" +:+ String "," "C3") = (_parser "A1 B2" ++ _parser "C3")%list
  ∧ _parser "A1" = ["A1"].
Proof.
  destruct parser_concatenation as [Hcat Hseul].
  split.
  - exact (Hcat "A1 B2" "C3" ","%char eq_refl).
  - apply Hseul; [discriminate|reflexivity].
Defined.

Lemma split_go_nil (s cur : string) :
  Py.split_go cur s = [] ↔ cur = "" ∧ tous Py.isspace s = true.
Proof.
  revert cur. induction s as [|c s IH]; intros cur; simpl.
  - destruct cur; split; (done || by intros [? ?]).
  - destruct (Py.isspace c); simpl.
    + rewrite app_nil, IH. destruct cur; simpl; [tauto|].
      split; intros [? _]; done.
    + rewrite IH. split; [|by intros [_ ?]].
      intros [H _]. by apply append_non_vide in H.
Qed.

Lemma replace_tous_espaces (s : string) :
  tous Py.isspace (Py.replace "," " " s) = tous est_separateur s.
Proof.
  induction s as [|c s IH]; simpl; [done|]. rewrite IH. f_equal.
  unfold est_separateur.
  destruct (Ascii.eqb c ","); [by rewrite orb_true_r|by rewrite orb_false_r].
Qed.

Lemma _parser_nil (texte : string) :
  _parser texte = [] ↔ tous est_separateur texte = true.
Proof.
  rewrite _parser_split. unfold Py.split.
  rewrite split_go_nil, replace_tous_espaces. tauto.
Qed.

(** X3.  The parser yields no token exactly when the text consists only
    of whitespace and commas (the empty text included). *)
Theorem parser_vide (texte : string) :
  _parser texte = [] ↔ tous est_separateur texte = true.
Proof.
  rewrite _parser_split. unfold Py.split.
  rewrite split_go_nil, replace_tous_espaces.
  split; [by intros [_ ?]|by intros ?].
Qed.

Lemma parser_vide_temoin :
  _parser " , ,, " = [] ∧ tous est_separateur "" = true.
Proof.
  split.
  - exact (proj2 (parser_vide " , ,, ") eq_refl).
  - exact (proj1 (parser_vide "") eq_refl).
Defined.

(** X4.  A text made only of separators is an order of zero items: in
    both strategies [traiter_commande] returns the empty package and
    leaves the whole state, output included, untouched (no
    cancellation notice); as an arrival it adds nothing and only
    reports 0 products. *)
Theorem commande_vide (texte : string) (strict : bool) (w : Monde) :
  tous est_separateur texte = true →
  traiter_commande texte strict w = ([], w)
  ∧ _traiter_arrivage texte w
    = (tt, mkMonde (alerteur w) (inventaire w)
             (journal w ++ [Print ("--> Arrivage trait" +:+ String "233"
                                     " : 0 produits.")])).
Proof.
  intros H. apply _parser_nil in H. unfold traiter_commande, _traiter_arrivage.
  rewrite H. split.
  - by destruct strict.
  - reflexivity.
Qed.

Lemma commande_vide_temoin :
  traiter_commande " , " true monde_vide = ([], monde_vide).
Proof. exact (proj1 (commande_vide " , " true monde_vide eq_refl)). Defined.

(** ** Arrivals and construction *)

Lemma for_ajouter_effet (l : list string) (w : Monde) :
  let w' := (for_ l ajouter w).2 in
  (∀ p, compte w' p = (compte w p + Z.of_nat (occurrences p l))%Z)
  ∧ (∀ p, file w' p = (file w p ++ replicate (occurrences p l) p)%list)
  ∧ alerteur w' = alerteur w
  ∧ journal w' = journal w.
Proof.
  revert w. induction l as [|x l IH]; intros w.
  - cbn zeta. change ((for_ [] ajouter w).2) with w. unfold occurrences; simpl.
    repeat split; intros; [lia|by rewrite app_nil_r].
  - cbn zeta. rewrite for_cons.
    destruct (IH (ajouter x w).2) as (Hc & Hf & Ha & Hj).
    destruct (alerteur_ajouter x w) as [Ha' Hj'].
    repeat split.
    + intros p. rewrite Hc, compte_ajouter, occurrences_cons.
      destruct (decide (p = x)) as [->|Hne].
      * rewrite decide_True by done. lia.
      * rewrite decide_False by congruence. lia.
    + intros p. rewrite Hf, file_ajouter, occurrences_cons.
      destruct (decide (p = x)) as [->|Hne].
      * rewrite decide_True by done. by rewrite <- app_assoc.
      * by rewrite decide_False by congruence.
    + by rewrite Ha.
    + by rewrite Hj.
Qed.

(** X5.  An arrival raises, for every product, both the ledger value
    and the queue by the number of times the product occurs among the
    parsed tokens (the new units are appended behind those already
    queued); it leaves the alert log untouched, never signals anything,
    and prints one line reporting the number of tokens. *)
Theorem arrivage_effet (texte : string) (w : Monde) :
  let w' := (_traiter_arrivage texte w).2 in
  let jetons := _parser texte in
  (∀ p, compte w' p = (compte w p + Z.of_nat (occurrences p jetons))%Z)
  ∧ (∀ p, file w' p = (file w p ++ replicate (occurrences p jetons) p)%list)
  ∧ alerteur w' = alerteur w
  ∧ journal w'
    = (journal w ++ [Print ("--> Arrivage trait" +:+ String "233" " : "
                            +:+ pretty (length jetons) +:+ " produits.")])%list.
Proof.
  intros w' jetons.
  destruct (for_ajouter_effet jetons w) as (Hc & Hf & Ha & Hj).
  assert (w' = mkMonde (alerteur (for_ jetons ajouter w).2)
                 (inventaire (for_ jetons ajouter w).2)
                 (journal (for_ jetons ajouter w).2
                  ++ [Print ("--> Arrivage trait" +:+ String "233" " : "
                             +:+ pretty (length jetons) +:+ " produits.")]))
    as -> by reflexivity.
  repeat split.
  - intros p. apply Hc.
  - intros p. apply Hf.
  - exact Ha.
  - simpl. by rewrite Hj.
Qed.

Lemma GestionnaireCommandes_init_eq (arrivage_init : option string) :
  let w := GestionnaireCommandes_init arrivage_init in
  inventaire w
  = inventaire (for_ (jetons_init arrivage_init) ajouter monde_vide).2
  ∧ alerteur w = SystemeAlerte_init.
Proof.
  destruct arrivage_init as [[|c t]|]; cbn zeta; split; try reflexivity.
  unfold GestionnaireCommandes_init. cbn [Py.truthy].
  destruct (for_ajouter_effet (_parser (String c t)) monde_vide)
    as (_ & _ & Ha & _).
  exact Ha.
Qed.

(** X6.  A freshly constructed [GestionnaireCommandes] has an empty
    alert log and, for every product, a ledger value equal to the
    length of its queue, both being the number of occurrences of the
    product among the tokens of the initial arrival; with no text, or
    the empty text, everything is empty. *)
Theorem etat_initial (arrivage_init : option string) (p : string) :
  let w := GestionnaireCommandes_init arrivage_init in
  let n := occurrences p (jetons_init arrivage_init) in
  compte w p = Z.of_nat n
  ∧ file w p = replicate n p
  ∧ alerteur w = SystemeAlerte_init
  ∧ GestionnaireCommandes_init None = monde_vide
  ∧ GestionnaireCommandes_init (Some "") = monde_vide.
Proof.
  intros w n.
  destruct (GestionnaireCommandes_init_eq arrivage_init) as [Hi Ha].
  destruct (for_ajouter_effet (jetons_init arrivage_init) monde_vide)
    as (Hc & Hf & _ & _).
  repeat split; [| |exact Ha].
  - unfold compte. fold w in Hi. rewrite Hi.
    change (compte (for_ (jetons_init arrivage_init) ajouter monde_vide).2 p
            = Z.of_nat n).
    rewrite Hc. unfold compte, Counter_get; simpl. rewrite lookup_empty. simpl. lia.
  - unfold file. fold w in Hi. rewrite Hi.
    change (file (for_ (jetons_init arrivage_init) ajouter monde_vide).2 p
            = replicate n p).
    rewrite Hf. unfold file; simpl. by rewrite lookup_empty.
Qed.

(** ** Effect of an order on the inventory *)

Lemma drop_tail {A} (n : nat) (l : list A) : drop n (tail l) = drop (S n) l.
Proof. destruct l; simpl; [by rewrite drop_nil|done]. Qed.

Lemma sortir_tous_effet (d : list string) (w : Monde) :
  let w' := (sortir_tous d w).2 in
  (∀ p, compte w' p = (compte w p - Z.of_nat (occurrences p d))%Z)
  ∧ (∀ p, file w' p = drop (occurrences p d) (file w p)).
Proof.
  revert w. induction d as [|x d IH]; intros w; cbn zeta.
  - change ((sortir_tous [] w).2) with w. unfold occurrences; simpl.
    split; intros; [lia|done].
  - rewrite sortir_tous_cons. cbn [snd].
    destruct (IH (sortir x w).2) as [Hc Hf]. split; intros p.
    + rewrite Hc, compte_sortir, occurrences_cons.
      destruct (decide (p = x)) as [->|Hne].
      * rewrite decide_True by done. lia.
      * rewrite decide_False by congruence. lia.
    + rewrite Hf, file_sortir, occurrences_cons.
      destruct (decide (p = x)) as [->|Hne].
      * rewrite decide_True by done. apply drop_tail.
      * by rewrite decide_False by congruence.
Qed.

(** X7.  An order that is carried out (placed with [strict=False], or
    strict and feasible) lowers the ledger value of every product by
    the number of times it is demanded, whether or not units were
    available, and removes that many units from the front of its
    queue, or all of them when the queue is shorter. *)
Theorem commande_effet (texte : string) (strict : bool) (w : Monde) :
  strict = false ∨ (_verifier_faisabilite (_parser texte) w).1 = true →
  let w' := (traiter_commande texte strict w).2 in
  let d := _parser texte in
  (∀ p, compte w' p = (compte w p - Z.of_nat (occurrences p d))%Z)
  ∧ (∀ p, file w' p = drop (occurrences p d) (file w p)).
Proof.
  intros H w' d. unfold w'. rewrite traiter_commande_accepte by done.
  apply sortir_tous_effet.
Qed.

Lemma commande_effet_temoin :
  let w := GestionnaireCommandes_init (Some "A1, A1, B2, C3, A3") in
  let w' := (traiter_commande "A1, A1, A1" false w).2 in
  compte w' "A1" = (compte w "A1" - 3)%Z ∧ file w' "A1" = [].
Proof.
  intros w w'.
  destruct (commande_effet "A1, A1, A1" false w (or_introl eq_refl)) as [Hc Hf].
  split; [exact (Hc "A1")|exact (Hf "A1")].
Defined.

Lemma colis_de_occurrences (d : list string) (x : string) (w : Monde) :
  unites_conformes w →
  Forall (λ t, t ≠ "") d →
  occurrences x (colis_de (sortir_tous d w).1)
  = occurrences x d `min` length (file w x).
Proof.
  intros Hu Hd. revert w Hu.
  induction Hd as [|p d Hp _ IH]; intros w Hu.
  - unfold occurrences; simpl. lia.
  - rewrite sortir_tous_cons. cbn [fst].
    pose proof (IH _ (unites_conformes_sortir p w Hu)) as IHw.
    rewrite file_sortir in IHw.
    rewrite resultat_sortir. rewrite occurrences_cons.
    pose proof (Hu p) as Hup.
    destruct (file w p) as [|u q] eqn:Hfile.
    + cbn [head colis_de]. rewrite IHw.
      destruct (decide (x = p)) as [->|Hne].
      * rewrite Hfile. simpl. lia.
      * rewrite decide_False by congruence. done.
    + inv Hup. cbn [head colis_de].
      destruct p as [|c p]; [done|]. cbn [Py.truthy].
      rewrite occurrences_cons, IHw.
      destruct (decide (x = String c p)) as [->|Hne].
      * rewrite decide_True by done. rewrite Hfile. simpl. lia.
      * rewrite !decide_False by congruence. done.
Qed.

(** X8.  In a state reached through the facade, an order that is
    carried out delivers of each product as many units as are demanded
    or as the queue holds, whichever is smaller. *)
Theorem colis_partiel (texte : string) (strict : bool) (x : string) (w : Monde) :
  atteignable w →
  strict = false ∨ (_verifier_faisabilite (_parser texte) w).1 = true →
  occurrences x (traiter_commande texte strict w).1
  = occurrences x (_parser texte) `min` length (file w x).
Proof.
  intros [_ Hu]%atteignable_coherent H.
  rewrite traiter_commande_accepte by done. cbn [fst].
  rewrite (occurrences_perm _ _ _ (_trier_par_volume_perm _)).
  apply colis_de_occurrences; [done|apply _parser_non_vide].
Qed.

Lemma colis_partiel_temoin :
  let w := GestionnaireCommandes_init (Some "A1, A1, B2, C3, A3") in
  occurrences "A1" (traiter_commande "A1, A1, A1" false w).1
  = occurrences "A1" (_parser "A1, A1, A1") `min` length (file w "A1").
Proof.
  intros w.
  exact (colis_partiel "A1, A1, A1" false "A1" w
           (att_init (Some "A1, A1, B2, C3, A3")) (or_introl eq_refl)).
Defined.

Lemma nb_ruptures_app (j1 j2 : list evenement) :
  nb_ruptures (j1 ++ j2) = nb_ruptures j1 + nb_ruptures j2.
Proof. unfold nb_ruptures. by rewrite List.filter_app, length_app. Qed.

Lemma nb_ruptures_sortir (p : string) (w : Monde) :
  nb_ruptures (journal (sortir p w).2)
  = nb_ruptures (journal w)
    + match (sortir p w).1 with None => 1 | Some _ => 0 end.
Proof.
  rewrite journal_sortir, !nb_ruptures_app.
  assert (nb_ruptures (if (compte w p - 1 <? 2)%Z
                       then [LogWarning (texte_alerte p (compte w p - 1))]
                       else []) = 0) as -> by (by destruct (_ <? 2)%Z).
  by destruct (sortir p w).1.
Qed.

Lemma ruptures_et_colis (d : list string) (w : Monde) :
  unites_conformes w →
  Forall (λ t, t ≠ "") d →
  nb_ruptures (journal (sortir_tous d w).2)
  + length (colis_de (sortir_tous d w).1)
  = nb_ruptures (journal w) + length d.
Proof.
  intros Hu Hd. revert w Hu.
  induction Hd as [|p d Hp _ IH]; intros w Hu; [simpl; lia|].
  rewrite sortir_tous_cons. cbn [fst snd].
  pose proof (IH _ (unites_conformes_sortir p w Hu)) as IHw.
  rewrite nb_ruptures_sortir in IHw.
  destruct (resultat_sortir_conforme p w Hu) as [Hr|Hr]; rewrite Hr in IHw |- *.
  - cbn [colis_de length]. lia.
  - cbn [colis_de]. destruct p; [done|]. cbn [Py.truthy length]. lia.
Qed.

(** X9.  In a state reached through the facade, each token of an order
    that is carried out gives rise either to one unit of the package or
    to one backorder record, never both and never neither: the new
    backorder records and the units of the package add up to the
    number of demand tokens. *)
Theorem ruptures_plus_colis (texte : string) (strict : bool) (w : Monde) :
  atteignable w →
  strict = false ∨ (_verifier_faisabilite (_parser texte) w).1 = true →
  let r := traiter_commande texte strict w in
  nb_ruptures (journal r.2) + length r.1
  = nb_ruptures (journal w) + length (_parser texte).
Proof.
  intros [_ Hu]%atteignable_coherent H r. unfold r.
  rewrite traiter_commande_accepte by done. cbn [fst snd].
  rewrite (Permutation_length (_trier_par_volume_perm _)).
  apply ruptures_et_colis; [done|apply _parser_non_vide].
Qed.

Lemma ruptures_plus_colis_temoin :
  let w := GestionnaireCommandes_init (Some "A1, A1, B2, C3, A3") in
  let r := traiter_commande "A1, A1, A1" false w in
  nb_ruptures (journal r.2) + length r.1
  = nb_ruptures (journal w) + length (_parser "A1, A1, A1").
Proof.
  intros w.
  exact (ruptures_plus_colis "A1, A1, A1" false w
           (att_init (Some "A1, A1, B2, C3, A3")) (or_introl eq_refl)).
Defined.

(** X10.  A strict order never creates debt: whether it is carried out
    or rejected, a ledger value that was not negative before the call
    is not negative after it. *)
Theorem strict_sans_dette (texte : string) (w : Monde) (p : string) :
  (0 ≤ compte w p)%Z →
  (0 ≤ compte (traiter_commande texte true w).2 p)%Z.
Proof.
  intros Hp.
  destruct (_verifier_faisabilite (_parser texte) w).1 eqn:Hf.
  - rewrite traiter_commande_accepte by auto.
    destruct (sortir_tous_effet (_parser texte) w) as [Hc _].
    rewrite Hc.
    destruct (_verifier_faisabilite_vrai _ _ Hf) as [_ Hd].
    destruct (decide (p ∈ _parser texte)) as [Hin|Hin].
    + specialize (Hd p Hin). lia.
    + rewrite occurrences_pos in Hin. lia.
  - unfold compte. by rewrite (proj2 (traiter_commande_rejet texte w Hf)).
Qed.

Lemma strict_sans_dette_temoin :
  let w := GestionnaireCommandes_init (Some "A1, A1, B2, C3, A3") in
  (0 ≤ compte (traiter_commande "A1, A1" true w).2 "A1")%Z.
Proof.
  intros w. apply (strict_sans_dette "A1, A1" w "A1"). vm_compute. discriminate.
Defined.

(** ** Life cycle of queues and ledger entries *)

(** X11.  Queues are created by [ajouter] only and are never removed:
    [sortir] keeps exactly the same set of queues (an emptied queue
    stays, an unknown product gets none) while it always leaves a
    ledger entry for the product, and [ajouter] makes sure both the
    queue and the ledger entry of the product exist. *)
Theorem cles_inventaire (p : string) (w : Monde) :
  dom (_files (inventaire (sortir p w).2)) = dom (_files (inventaire w))
  ∧ dom (_comptes (inventaire (sortir p w).2))
    = {[p]} ∪ dom (_comptes (inventaire w))
  ∧ dom (_files (inventaire (ajouter p w).2))
    = {[p]} ∪ dom (_files (inventaire w))
  ∧ dom (_comptes (inventaire (ajouter p w).2))
    = {[p]} ∪ dom (_comptes (inventaire w)).
Proof.
  rewrite inventaire_sortir, ajouter_eq. cbn [_files _comptes inventaire snd].
  rewrite !dom_insert_L. repeat split.
  destruct (_files (inventaire w) !! p) as [[|t r]|] eqn:E; try done.
  rewrite dom_insert_L.
  assert (p ∈ dom (_files (inventaire w))) as Hp by (apply elem_of_dom; eauto).
  apply subseteq_union_1_L. by apply singleton_subseteq_l.
Qed.

(** X12.  An [ajouter] immediately followed by a [sortir] of the same
    product restores every ledger value and every queue length; the
    unit handed out is the one at the front of the queue before the
    arrival, or the new unit when that queue was empty or absent, and
    no backorder is recorded. *)
Theorem ajouter_puis_sortir (p : string) (w : Monde) :
  let r := sortir p (ajouter p w).2 in
  (∀ q, compte r.2 q = compte w q)
  ∧ (∀ q, length (file r.2 q) = length (file w q))
  ∧ r.1 = Some (default p (head (file w p)))
  ∧ file r.2 p = (tail (file w p ++ [p]))%list
  ∧ nb_ruptures (journal r.2) = nb_ruptures (journal w).
Proof.
  intros r. unfold r. repeat split.
  - intros q. rewrite compte_sortir, !compte_ajouter.
    destruct (decide (q = p)) as [->|Hne]; [|done].
    rewrite decide_True by done. lia.
  - intros q. rewrite file_sortir, !file_ajouter.
    destruct (decide (q = p)) as [->|Hne]; [|done].
    rewrite decide_True by done.
    destruct (file w p); simpl; [done|]. rewrite length_app. simpl. lia.
  - rewrite resultat_sortir, file_ajouter, decide_True by done.
    by destruct (file w p).
  - by rewrite file_sortir, decide_True, file_ajouter, decide_True.
  - rewrite nb_ruptures_sortir, resultat_sortir, file_ajouter, decide_True by done.
    destruct (alerteur_ajouter p w) as [_ ->].
    destruct (file w p); simpl; lia.
Qed.

(** X13.  The gap between the length of a queue and the ledger value of
    its product never shrinks: [ajouter] leaves every gap as it was,
    and [sortir p] leaves every gap as it was except that the gap of
    [p] grows by exactly 1 when no unit could be handed out.  A gap,
    once opened, is therefore never closed by later arrivals. *)
Theorem ecart_monotone (p q : string) (w : Monde) :
  ecart (ajouter p w).2 q = ecart w q
  ∧ ecart (sortir p w).2 q
    = (ecart w q
       + if decide (q = p)
         then match (sortir p w).1 with None => 1 | Some _ => 0 end
         else 0)%Z.
Proof.
  unfold ecart. split.
  - rewrite compte_ajouter, file_ajouter.
    destruct (decide (q = p)) as [->|Hne]; [|done].
    rewrite length_app. simpl. lia.
  - rewrite compte_sortir, file_sortir, resultat_sortir.
    destruct (decide (q = p)) as [->|Hne]; [|lia].
    destruct (file w p); simpl; lia.
Qed.

(** ** Sorting a package *)

Lemma insert_sorted_tete {A} (key : A → Z) (x : A) (l : list A) :
  Forall (croissant key x) l → Py.insert_sorted key x l = x :: l.
Proof.
  destruct 1 as [|y l Hy _]; [done|]. simpl.
  unfold croissant in Hy. by rewrite (proj2 (Z.leb_le _ _) Hy).
Qed.

Lemma sort_asc_deja_trie {A} (key : A → Z) (l : list A) :
  StronglySorted (croissant key) l → Py.sort_asc key l = l.
Proof.
  induction 1 as [|x l _ IH Hx]; [done|]. simpl.
  rewrite IH. by apply insert_sorted_tete.
Qed.

Lemma reverse_sorted_inv {A} (key : A → Z) (l : list A) :
  StronglySorted (decroissant key) l →
  StronglySorted (croissant key) (reverse l).
Proof.
  induction 1 as [|y l Hl IH Hy]; [constructor|].
  rewrite reverse_cons. apply StronglySorted_app_2; [|exact IH|repeat constructor].
  intros a b Ha Hb. apply list_elem_of_singleton in Hb as ->.
  rewrite elem_of_reverse in Ha. rewrite Forall_forall in Hy.
  apply (Hy a Ha).
Qed.

Lemma sort_reverse_deja_trie {A} (key : A → Z) (l : list A) :
  StronglySorted (decroissant key) l → Py.sort key true l = l.
Proof.
  intros H. unfold Py.sort.
  rewrite sort_asc_deja_trie by by apply reverse_sorted_inv.
  apply reverse_involutive.
Qed.

(** X14.  [_trier_par_volume] keeps the length of a package, leaves a
    package that is already in non-increasing order of volume exactly
    as it is, and is therefore idempotent. *)
Theorem trier_par_volume_idempotent (l : list string) :
  length (_trier_par_volume l) = length l
  ∧ (StronglySorted (decroissant _extraire_vol) l → _trier_par_volume l = l)
  ∧ _trier_par_volume (_trier_par_volume l) = _trier_par_volume l.
Proof.
  repeat split.
  - apply Permutation_length, sort_reverse_perm.
  - apply sort_reverse_deja_trie.
  - apply sort_reverse_deja_trie, sort_reverse_sorted.
Qed.

Lemma trier_par_volume_idempotent_temoin :
  _trier_par_volume ["C3"; "B2"; "A1"] = ["C3"; "B2"; "A1"].
Proof.
  apply (proj1 (proj2 (trier_par_volume_idempotent ["C3"; "B2"; "A1"]))).
  repeat constructor; unfold decroissant; vm_compute; discriminate.
Defined.

(** ** Signed volumes *)

Lemma int_signe (ds : string) :
  ds ≠ "" → tous_chiffres ds = true →
  (String.length ds ≤ Py.int_max_str_digits)%nat →
  Py.int (String "-" ds) = Some (- Z.of_N (valeur_decimale 0 ds))%Z
  ∧ Py.int (String "+" ds) = Some (Z.of_N (valeur_decimale 0 ds)).
Proof.
  intros Hne Hd Hlen. destruct ds as [|c ds]; [done|].
  pose proof Hd as Hd'. simpl in Hd'. apply andb_prop in Hd' as [Hc _].
  destruct (chiffre_ordinaire c Hc) as (_ & Hus & _ & _).
  apply Nat.ltb_ge in Hlen.
  split; unfold Py.int.
  - change (Py.int_skip_space (String "-" (String c ds)))
      with (String "-" (String c ds)).
    cbv beta iota zeta.
    change (Ascii.eqb "-" "+") with false.
    change (Ascii.eqb "-" "-") with true. cbv beta iota zeta.
    rewrite Hus, int_scan_chiffres by done. cbn [Nat.add].
    rewrite Hlen. cbn [String.length Nat.eqb Py.int_skip_space].
    f_equal; lia.
  - change (Py.int_skip_space (String "+" (String c ds)))
      with (String "+" (String c ds)).
    cbv beta iota zeta.
    change (Ascii.eqb "+" "+") with true. cbv beta iota zeta.
    rewrite Hus, int_scan_chiffres by done. cbn [Nat.add].
    rewrite Hlen. cbn [String.length Nat.eqb Py.int_skip_space].
    f_equal; lia.
Qed.

(** X15.  A sign between the first character and the digits of a name
    is accepted: with a minus sign the volume is the negated integer
    (negative whenever the integer is not zero), and with a plus sign
    it is the integer itself. *)
Theorem extraire_vol_signe (c : ascii) (ds : string) :
  ds ≠ "" → tous_chiffres ds = true →
  (String.length ds ≤ Py.int_max_str_digits)%nat →
  _extraire_vol (String c (String "-" ds))
  = (- Z.of_N (valeur_decimale 0 ds))%Z
  ∧ _extraire_vol (String c (String "+" ds))
    = Z.of_N (valeur_decimale 0 ds).
Proof.
  intros Hne Hd Hlen.
  destruct (int_signe ds Hne Hd Hlen) as [Hm Hp].
  unfold _extraire_vol. cbn [Py.slice_from_1].
  by rewrite Hm, Hp.
Qed.

Lemma extraire_vol_signe_temoin :
  _extraire_vol "A-3" = (-3)%Z ∧ _extraire_vol "A+3" = 3%Z.
Proof.
  assert ("3" ≠ "") as Hne by discriminate.
  assert ((String.length "3" ≤ Py.int_max_str_digits)%nat) as Hlen
    by (unfold Py.int_max_str_digits; simpl; lia).
  exact (extraire_vol_signe "A"%char "3" Hne eq_refl Hlen).
Defined.

(** ** The alert log from any state *)

Lemma inventaire_for_noter (msgs : list string) (w : Monde) :
  inventaire (for_ msgs noter w).2 = inventaire w.
Proof.
  revert w. induction msgs as [|m msgs IH]; intros w; [done|].
  rewrite for_cons, IH. by destruct w.
Qed.

(** X16.  Whatever the alert log held before, once at least three
    messages have been recorded the display shows exactly the last
    three, oldest first (each rendered by the no-alert rule for empty
    strings); recording messages never touches the inventory. *)
Theorem trois_dernieres_alertes
    (msgs : list string) (a b c : string) (w : Monde) :
  let w' := (for_ (msgs ++ [a; b; c]) noter w).2 in
  chrono (alerteur w') = [Some a; Some b; Some c]
  ∧ inventaire w' = inventaire w
  ∧ (afficher_tout w').2
    = mkMonde (alerteur w') (inventaire w')
        (journal w' ++ [Print entete_panneau;
                        Print ("Slot 1 : " +:+ etat_de (Some a));
                        Print ("Slot 2 : " +:+ etat_de (Some b));
                        Print ("Slot 3 : " +:+ etat_de (Some c))]).
Proof.
  intros w'.
  assert (chrono (alerteur w') = [Some a; Some b; Some c]) as Hc.
  { unfold w'. rewrite chrono_for_noter, map_app, app_assoc.
    apply drop_app_length'.
    rewrite !length_app, length_map, chrono_length. simpl. lia. }
  split; [exact Hc|]. split; [apply inventaire_for_noter|].
  destruct (afficher_tout_journal w') as (o1 & o2 & o3 & Ho & Hj).
  rewrite Hc in Ho. injection Ho as <- <- <-. exact Hj.
Qed.
